(** * UKV: the LevelDB engine, the SoA argument bundles and the NetworkX view

    A shallow embedding of
    - [src/ukv_leveldb.cpp]: the key comparator, the write and read paths and
      the entry points the engine does not support;
    - [include/ustore/cpp/ranges_args.hpp]: the argument bundles and the
      preflight validators;
    - [python/pybind_networkx.cpp]: the [neighbors] method.

    Integers of fixed width are [Z] with the wrap-around written out, bytes
    are [Byte.byte], raw memory is a function from addresses to bytes, the
    contents of the database are a [gmap]. *)

From Stdlib Require Import ZArith Lia.
From Stdlib Require Import Strings.Byte.
From stdpp Require Import base option list gmap strings sorting.

Local Open Scope Z_scope.

(** ** Bytes and little-endian integers *)

Module Bytes.

Definition byte_of_Z (z : Z) : byte :=
  default x00 (Byte.of_N (Z.to_N (z mod 256))).

Definition Z_of_byte (b : byte) : Z := Z.of_N (Byte.to_N b).

(** [w] bytes of [x], least significant first.  The floor division makes
    the encoding of a negative number its two's complement. *)
Fixpoint le_encode (w : nat) (x : Z) : list byte :=
  match w with
  | O => []
  | S w' => byte_of_Z x :: le_encode w' (x / 256)
  end.

Fixpoint le_decode (l : list byte) : Z :=
  match l with
  | [] => 0
  | b :: l' => Z_of_byte b + 256 * le_decode l'
  end.

(** Reinterpretation of a [w]-bit pattern as a signed integer. *)
Definition to_signed (w : Z) (u : Z) : Z :=
  if u <? 2 ^ (w - 1) then u else u - 2 ^ w.

(** Truncation to an unsigned [w]-bit integer. *)
Definition wrap (w : Z) (x : Z) : Z := x mod 2 ^ w.

End Bytes.
Export Bytes.

(** ** Widths and constants of [ukv.h]

    The header is not among the sources; the engine fixes the two sentinels
    itself with [std::numeric_limits] on the types below. *)

(** Modelled from the spec: [ukv_key_t] is a signed 64-bit integer. *)
Definition ukv_key_bits : Z := 64.
(** Modelled from the spec: [ukv_val_len_t] is an unsigned 32-bit integer,
    so that the largest one is [2^32 - 1]. *)
Definition ukv_val_len_bits : Z := 32.
(** Modelled from the spec: [ukv_size_t] is an unsigned 64-bit integer
    (declared in [ukv.h], which is not among the sources). *)
Definition ukv_size_bits : Z := 64.

Definition sizeof_ukv_key_t : nat := 8.
Definition sizeof_ukv_val_len_t : nat := 4.
Definition sizeof_ukv_size_t : nat := 8.

Definition ukv_val_len_missing_k : Z := 2 ^ ukv_val_len_bits - 1.
Definition ukv_key_unknown_k : Z := 2 ^ (ukv_key_bits - 1) - 1.

Definition key_in_range (k : Z) : Prop :=
  - 2 ^ (ukv_key_bits - 1) <= k < 2 ^ (ukv_key_bits - 1).

(** ** The key comparator of the LevelDB engine *)

Module key_comparator_t.

(** [leveldb::Slice]: a pointer and a size, here the bytes it designates. *)
Definition Slice := list byte.

(** [to_slice(ukv_key_t const&)]: the eight bytes of the key in place. *)
Definition to_slice (key : Z) : Slice := le_encode sizeof_ukv_key_t key.

(** [*reinterpret_cast<ukv_key_t const*>(a.data())]. *)
Definition load_key (a : Slice) : Z :=
  to_signed ukv_key_bits (le_decode (take sizeof_ukv_key_t a)).

Definition Compare (a b : Slice) : Z :=
  let ai := load_key a in
  let bi := load_key b in
  if ai =? bi then 0 else if ai <? bi then -1 else 1.

(** [memcmp] order on slices, the order of LevelDB's default
    [BytewiseComparator]; only used to tell the two orders apart. *)
Fixpoint bytewise_compare (a b : Slice) : Z :=
  match a, b with
  | [], [] => 0
  | [], _ :: _ => -1
  | _ :: _, [] => 1
  | x :: a', y :: b' =>
      if Z_of_byte x =? Z_of_byte y then bytewise_compare a' b'
      else if Z_of_byte x <? Z_of_byte y then -1 else 1
  end.

(** [FindShortestSeparator] has an empty body: [*start] stays as it is. *)
Definition FindShortestSeparator (start limit : Slice) : Slice := start.

(** [FindShortSuccessor]: the integer in the first eight bytes of [*key] is
    incremented in place, the bytes after it are not touched.  The increment
    of the largest key overflows; the model lets it wrap around, as the
    machine does. *)
Definition FindShortSuccessor (key : Slice) : Slice :=
  le_encode sizeof_ukv_key_t (load_key key + 1) ++ drop sizeof_ukv_key_t key.

End key_comparator_t.

(** ** LevelDB, as far as the engine uses it

    LevelDB is an external library.  Its database is modelled by the table
    it holds, keyed by the integer its comparator reads from a key slice
    ([key_comparator_k] is installed by [ukv_open]), and by the failure, if
    any, that its next operations report. *)

Module leveldb.
Import key_comparator_t.

Inductive Failure := Corruption | IOError | InvalidArgument | OtherFailure.

Inductive Status := OK | NotFound | Failed (f : Failure).

Definition ok (s : Status) : bool :=
  match s with OK => true | _ => false end.
Definition IsNotFound (s : Status) : bool :=
  match s with NotFound => true | _ => false end.
Definition IsCorruption (s : Status) : bool :=
  match s with Failed Corruption => true | _ => false end.
Definition IsIOError (s : Status) : bool :=
  match s with Failed IOError => true | _ => false end.
Definition IsInvalidArgument (s : Status) : bool :=
  match s with Failed InvalidArgument => true | _ => false end.

Record DB := mkDB {
  table : gmap Z (list byte);
  trouble : option Failure
}.

Record WriteOptions := { sync : bool }.
Record ReadOptions := { verify_checksums : bool; fill_cache : bool }.

Inductive BatchOp :=
| BatchPut (key value : Slice)
| BatchDelete (key : Slice).

(** [leveldb::WriteBatch], operations in the order they were added. *)
Definition WriteBatch := list BatchOp.

Definition apply_op (t : gmap Z (list byte)) (op : BatchOp) : gmap Z (list byte) :=
  match op with
  | BatchPut key value => <[load_key key := value]> t
  | BatchDelete key => delete (load_key key) t
  end.

(** [DB::Write]: the whole batch or nothing. *)
Definition Write (options : WriteOptions) (batch : WriteBatch) (db : DB) : Status * DB :=
  match trouble db with
  | Some f => (Failed f, db)
  | None => (OK, mkDB (foldl apply_op (table db) batch) None)
  end.

(** [DB::Put] and [DB::Delete] are LevelDB's default implementations: a
    batch of one operation handed to [Write]. *)
Definition Put (options : WriteOptions) (key value : Slice) (db : DB) : Status * DB :=
  Write options [BatchPut key value] db.

Definition Delete (options : WriteOptions) (key : Slice) (db : DB) : Status * DB :=
  Write options [BatchDelete key] db.

(** [DB::Get]: the string is assigned only when the key is found. *)
Definition Get (options : ReadOptions) (key : Slice) (value : list byte) (db : DB)
  : Status * list byte :=
  match trouble db with
  | Some f => (Failed f, value)
  | None =>
      match table db !! load_key key with
      | Some v => (OK, v)
      | None => (NotFound, value)
      end
  end.

End leveldb.

(** ** The engine: [ukv_leveldb.cpp] *)

Module ukv_leveldb.
Import key_comparator_t leveldb.

(** [ukv_error_t]: a null pointer or a message. *)
Definition ukv_error_t := option string.

Definition export_error (status : Status) (c_error : ukv_error_t) : bool * ukv_error_t :=
  if ok status then (false, c_error)
  else if IsCorruption status then (true, Some "Failure: DB Corrpution"%string)
  else if IsIOError status then (true, Some "Failure: IO  Error"%string)
  else if IsInvalidArgument status then (true, Some "Failure: Invalid Argument"%string)
  else (true, Some "Failure"%string).

(** Modelled from the spec: [write_task_t] of [helpers.hpp], which is not
    among the sources.  A task is a key and the view of its payload; a
    null payload pointer makes the task a deletion. *)
Record write_task_t := {
  key : Z;
  payload : option (list byte)
}.

Definition is_deleted (task : write_task_t) : bool :=
  match payload task with None => true | Some _ => false end.

Definition view (task : write_task_t) : list byte := default [] (payload task).

(** Modelled from the spec: [write_tasks_soa_t] and [read_tasks_soa_t] of
    [helpers.hpp]; [tasks[i]] materialises the [i]-th record from the
    strided columns, for any [i]. *)
Definition write_tasks_soa_t := nat -> write_task_t.

Record read_task_t := { rkey : Z }.
Definition read_tasks_soa_t := nat -> read_task_t.

Definition write_one (db : DB) (tasks : write_tasks_soa_t) (n : nat)
    (options : WriteOptions) (c_error : ukv_error_t) : DB * ukv_error_t :=
  let task := tasks 0%nat in
  let key := to_slice (key task) in
  let '(status, db') :=
    if is_deleted task then Delete options key db
    else Put options key (view task) db in
  (db', (export_error status c_error).2).

(** The batch built by the loop of [write_many], from index [i] on. *)
Fixpoint fill_batch (tasks : write_tasks_soa_t) (i todo : nat) (batch : WriteBatch)
  : WriteBatch :=
  match todo with
  | O => batch
  | S todo' =>
      let task := tasks i in
      let key := to_slice (key task) in
      let batch' :=
        if is_deleted task then batch ++ [BatchDelete key]
        else batch ++ [BatchPut key (view task)] in
      fill_batch tasks (S i) todo' batch'
  end.

Definition write_many (db : DB) (tasks : write_tasks_soa_t) (n : nat)
    (options : WriteOptions) (c_error : ukv_error_t) : DB * ukv_error_t :=
  let batch := fill_batch tasks 0 n [] in
  let '(status, db') := Write options batch db in
  (db', (export_error status c_error).2).

(** *** Reading *)

(** Modelled from the spec: [stl_arena_t] of [helpers.hpp]; the arena owns
    the output tape, a growable byte buffer. *)
Record stl_arena_t := { output_tape : list byte }.

(** Modelled from the spec: [prepare_memory] of [helpers.hpp], which is not
    among the sources, grows the output buffer of the arena.  The callers
    copy to [tape + old_tape_len] and read the lengths from the start of the
    buffer afterwards: the call resizes the tape to [n] bytes, keeps what it
    held and returns its start.  The allocation is taken to succeed, so the
    error is left as it was. *)
Definition prepare_memory (tape : list byte) (n : nat) : list byte :=
  resize n x00 tape.

(** [std::memcpy(tape + off, src, |src|)]. *)
Definition memcpy (tape : list byte) (off : nat) (src : list byte) : list byte :=
  take off tape ++ src ++ drop (off + length src) tape.

(** An output pointer of the C interface: what the caller left in it, or an
    address inside the output tape. *)
Inductive out_ptr := Untouched | InTape (offset : nat).

(** What a read works on: the scratch string, the two output pointers, the
    tape of the arena and the error. *)
Record read_frame := mkFrame {
  value : list byte;
  c_found_lengths : out_ptr;
  c_found_values : out_ptr;
  tape : list byte;
  c_error : ukv_error_t
}.

(** [lens[i]] for a [ukv_val_len_t* lens] at offset [base] of the tape. *)
Definition load_val_len (t : list byte) (base i : nat) : Z :=
  le_decode (take sizeof_ukv_val_len_t (drop (base + sizeof_ukv_val_len_t * i) t)).

Definition store_val_len (t : list byte) (base i : nat) (len : Z) : list byte :=
  memcpy t (base + sizeof_ukv_val_len_t * i) (le_encode sizeof_ukv_val_len_t len).

Definition read_one (db : DB) (tasks : read_tasks_soa_t) (n : nat)
    (options : ReadOptions) (fr : read_frame) : read_frame :=
  let task := tasks 0%nat in
  let '(status, value) := Get options (to_slice (rkey task)) (value fr) db in
  let '(failed, c_error) :=
    if negb (IsNotFound status) then export_error status (c_error fr)
    else (false, c_error fr) in
  if failed then mkFrame value (c_found_lengths fr) (c_found_values fr) (tape fr) c_error
  else
    let bytes_in_value := length value in
    let exported_len :=
      if IsNotFound status then ukv_val_len_missing_k
      else wrap ukv_size_bits (Z.of_nat bytes_in_value) in
    let tape := prepare_memory (tape fr) (sizeof_ukv_size_t + bytes_in_value) in
    match c_error with
    | Some _ => mkFrame value (c_found_lengths fr) (c_found_values fr) tape c_error
    | None =>
        let tape := memcpy tape 0 (le_encode sizeof_ukv_size_t exported_len) in
        let tape := memcpy tape sizeof_ukv_size_t value in
        mkFrame value (InTape 0) (InTape sizeof_ukv_size_t) tape c_error
    end.

(** The loop of [read_many] from index [i] on, [todo] iterations left. *)
Fixpoint read_many_loop (db : DB) (tasks : read_tasks_soa_t) (options : ReadOptions)
    (i todo : nat) (fr : read_frame) : read_frame :=
  match todo with
  | O => fr
  | S todo' =>
      let task := tasks i in
      let '(status, value) := Get options (to_slice (rkey task)) (value fr) db in
      if IsNotFound status then
        read_many_loop db tasks options (S i) todo'
          (mkFrame value (c_found_lengths fr) (c_found_values fr) (tape fr) (c_error fr))
      else
        let '(failed, c_error) := export_error status (c_error fr) in
        if failed then
          mkFrame value (c_found_lengths fr) (c_found_values fr) (tape fr) c_error
        else
          let old_tape_len := length (tape fr) in
          let bytes_in_value := length value in
          let tape := prepare_memory (tape fr) (old_tape_len + bytes_in_value) in
          match c_error with
          | Some _ => mkFrame value (c_found_lengths fr) (c_found_values fr) tape c_error
          | None =>
              let tape := memcpy tape old_tape_len value in
              let tape :=
                store_val_len tape 0 i
                  (wrap ukv_val_len_bits (Z.of_nat bytes_in_value)) in
              read_many_loop db tasks options (S i) todo'
                (mkFrame value (c_found_lengths fr) (c_found_values fr) tape c_error)
          end
  end.

Definition read_many (db : DB) (tasks : read_tasks_soa_t) (n : nat)
    (options : ReadOptions) (fr : read_frame) : read_frame :=
  let lens_bytes := (sizeof_ukv_val_len_t * n)%nat in
  let tape := prepare_memory (tape fr) lens_bytes in
  match c_error fr with
  | Some _ => mkFrame (value fr) (c_found_lengths fr) (c_found_values fr) tape (c_error fr)
  | None =>
      (* std::fill_n(lens, n, 0) *)
      let tape := memcpy tape 0 (replicate lens_bytes x00) in
      read_many_loop db tasks options 0 n
        (mkFrame (value fr) (c_found_lengths fr) (c_found_values fr) tape (c_error fr))
  end.

(** Modelled from the spec: [cast_arena] of [helpers.hpp] gives the arena
    of the caller, a new empty one when the caller has none yet. *)
Definition cast_arena (c_arena : option stl_arena_t) : stl_arena_t :=
  default {| output_tape := [] |} c_arena.

(** [ukv_read]: the transaction, the collections and the options are
    unnamed parameters.  Nothing in the model throws, the [catch] clause has
    no part.  The result is the frame the call leaves: the
    output pointers, the tape of the arena and the error. *)
Definition ukv_read (c_db : DB) (tasks : read_tasks_soa_t) (c_keys_count : nat)
    (c_found_lengths c_found_values : out_ptr)
    (c_arena : option stl_arena_t) (c_error : ukv_error_t) : read_frame :=
  let options := {| verify_checksums := false; fill_cache := true |} in
  let arena := cast_arena c_arena in
  (* make_value: a new empty string *)
  let value := [] in
  let func := if Nat.eqb c_keys_count 1 then read_one else read_many in
  func c_db tasks c_keys_count options
    (mkFrame value c_found_lengths c_found_values (output_tape arena) c_error).

(** What the caller finds behind an output pointer. *)
Definition found_length (fr : read_frame) (i : nat) : option Z :=
  match c_found_lengths fr with
  | Untouched => None
  | InTape base => Some (load_val_len (tape fr) base i)
  end.

Definition found_bytes (fr : read_frame) (offset len : nat) : option (list byte) :=
  match c_found_values fr with
  | Untouched => None
  | InTape base => Some (take len (drop (base + offset) (tape fr)))
  end.

(** *** Entry points the engine does not support *)

Definition ukv_collection_open (c_db : DB) (c_col_name c_config : string)
    (c_col : out_ptr) (c_error : ukv_error_t) : DB * out_ptr * ukv_error_t :=
  (c_db, c_col, Some "Collections not supported by LevelDB!"%string).

Definition ukv_collection_remove (c_db : DB) (c_col_name : string)
    (c_error : ukv_error_t) : DB * ukv_error_t :=
  (c_db, Some "Collections not supported by LevelDB!"%string).

Definition ukv_control (c_db : DB) (c_request : string) (c_response : out_ptr)
    (c_error : ukv_error_t) : DB * out_ptr * ukv_error_t :=
  (c_db, c_response, Some "Controls not supported by LevelDB!"%string).

Definition ukv_txn_begin (c_db : DB) (c_sequence_number : nat) (c_options : Z)
    (c_txn : out_ptr) (c_error : ukv_error_t) : DB * out_ptr * ukv_error_t :=
  (c_db, c_txn, Some "Transactions not supported by LevelDB!"%string).

(** [ukv_txn_commit] is not given the database; the database it could
    reach through the transaction is the argument [c_db]. *)
Definition ukv_txn_commit (c_db : DB) (c_txn : out_ptr) (c_options : Z)
    (c_error : ukv_error_t) : DB * ukv_error_t :=
  (c_db, Some "Transactions not supported by LevelDB!"%string).

(** *** Batches, for the statements *)

(** The columns of a write laid over a list of pairs: task [i] puts the
    [i]-th pair.  Beyond the list the columns hold nothing to write. *)
Definition write_tasks_of (batch : list (Z * list byte)) : write_tasks_soa_t :=
  fun i =>
    match batch !! i with
    | Some (k, v) => {| key := k; payload := Some v |}
    | None => {| key := 0; payload := None |}
    end.

Definition read_tasks_of (keys : list Z) : read_tasks_soa_t :=
  fun i => {| rkey := default 0 (keys !! i) |}.

(** The key an operation of a batch is about, as the comparator reads it. *)
Definition op_key (op : BatchOp) : Z :=
  match op with
  | BatchPut key _ => load_key key
  | BatchDelete key => load_key key
  end.

(** The operation the loop of [write_many] adds for a task. *)
Definition op_of_task (task : write_task_t) : BatchOp :=
  if is_deleted task then BatchDelete (to_slice (key task))
  else BatchPut (to_slice (key task)) (view task).

(** What the database holds for the key of read task [j]. *)
Definition stored (db : DB) (tasks : read_tasks_soa_t) (j : nat) : option (list byte) :=
  table db !! load_key (to_slice (rkey (tasks j))).

(** The values of the tasks [i .. i + todo) that are found, in order. *)
Fixpoint found_values (db : DB) (tasks : read_tasks_soa_t) (i todo : nat) : list byte :=
  match todo with
  | O => []
  | S todo' => default [] (stored db tasks i) ++ found_values db tasks (S i) todo'
  end.

(** The message [export_error] stores for a failure. *)
Definition failure_message (f : Failure) : string :=
  match f with
  | Corruption => "Failure: DB Corrpution"
  | IOError => "Failure: IO  Error"
  | InvalidArgument => "Failure: Invalid Argument"
  | OtherFailure => "Failure"
  end.

(** The columns of a write without values: task [i] deletes the [i]-th key. *)
Definition delete_tasks_of (keys : list Z) : write_tasks_soa_t :=
  fun i => {| key := default 0 (keys !! i); payload := None |}.

Section entry_points.

(** The flag of [ukv_options_t] that asks for a flush; [ukv.h] is not
    among the sources, the value is a parameter. *)
Variable ukv_option_write_flush_k : Z.

(** [ukv_write]: [tasks] stands for the five strided columns the function
    wraps into a [write_tasks_soa_t]; the transaction and the arena are not
    used.  Nothing in the model throws, the [catch] clause has no part. *)
Definition ukv_write (c_db : DB) (tasks : write_tasks_soa_t) (c_keys_count : nat)
    (c_options : Z) (c_error : ukv_error_t) : DB * ukv_error_t :=
  let options :=
    {| sync := negb (Z.land c_options ukv_option_write_flush_k =? 0) |} in
  let func := if Nat.eqb c_keys_count 1 then write_one else write_many in
  func c_db tasks c_keys_count options c_error.

End entry_points.

End ukv_leveldb.

(** ** Strided views and argument bundles: [ranges_args.hpp] *)

Module ranges_args.

(** Raw memory: a byte at every address; address [0] is the null pointer. *)
Definition memory := Z -> byte.

Definition load_bytes (m : memory) (a : Z) (n : nat) : list byte :=
  (fun i => m (a + Z.of_nat i)) <$> seq 0 n.

(** The element types the views range over.  Their widths come from
    [ustore.h], which is not among the sources; no statement below depends
    on them. *)
Inductive element_t :=
| collection_e   (* ustore_collection_t *)
| key_e          (* ustore_key_t *)
| str_view_e     (* ustore_str_view_t *)
| length_e       (* ustore_length_t *)
| bytes_cptr_e   (* ustore_bytes_cptr_t *)
| vertex_role_e. (* ustore_vertex_role_t *)

Definition load (e : element_t) (m : memory) (a : Z) : Z :=
  match e with
  | collection_e => le_decode (load_bytes m a 8)
  | key_e => to_signed 64 (le_decode (load_bytes m a 8))
  | str_view_e => le_decode (load_bytes m a 8)
  | length_e => le_decode (load_bytes m a 4)
  | bytes_cptr_e => le_decode (load_bytes m a 8)
  | vertex_role_e => le_decode (load_bytes m a 4)
  end.

(** Modelled from the spec: [strided_iterator_gt] of [ranges.hpp], which is
    not among the sources: a base pointer and a stride in bytes; index [i]
    reads from [base + i * stride], stride [0] broadcasts the first
    element, a null base makes the argument absent.  A pointer alone
    converts to an iterator of stride [0]. *)
Record strided_iterator_gt (e : element_t) := mk_strided {
  raw : Z;
  stride : Z
}.
Arguments mk_strided {e} raw stride.
Arguments raw {e} _.
Arguments stride {e} _.

Definition of_pointer {e : element_t} (p : Z) : strided_iterator_gt e :=
  mk_strided p 0.

(** [explicit operator bool]. *)
Definition is_set {e : element_t} (it : strided_iterator_gt e) : bool :=
  negb (raw it =? 0).

(** [it[i]]. *)
Definition at_ {e : element_t} (m : memory) (it : strided_iterator_gt e) (i : nat) : Z :=
  load e m (raw it + Z.of_nat i * stride it).

(** Modelled from the spec: [strided_range_gt] of [ranges.hpp]: an iterator
    and a count. *)
Record strided_range_gt (e : element_t) := mk_range {
  begin_ : strided_iterator_gt e;
  count_ : nat
}.
Arguments mk_range {e} begin_ count_.
Arguments begin_ {e} _.
Arguments count_ {e} _.

Definition range_at {e : element_t} (m : memory) (r : strided_range_gt e) (i : nat) : Z :=
  at_ m (begin_ r) i.

(** Modelled from the spec: [bits_view_t] of [ranges.hpp], the presences
    bitmap: bit [i mod 8] of the byte at [i / 8]. *)
Record bits_view_t := { bits_begin : Z }.

Definition bits_is_set (b : bits_view_t) : bool := negb (bits_begin b =? 0).

Definition bits_at (m : memory) (b : bits_view_t) (i : nat) : bool :=
  Z.testbit (Z_of_byte (m (bits_begin b + Z.of_nat i / 8))) (Z.of_nat i mod 8).

Section bundles.

(** Constants of [ustore.h]: the handle of the main collection, the role
    that stands for both roles, the identifier of an unlabelled edge and
    the address at which that global is stored. *)
Variable ustore_collection_main_k : Z.
Variable ustore_vertex_role_any_k : Z.
Variable ustore_default_edge_id_k : Z.
Variable ustore_default_edge_id_addr : Z.

Record place_t := {
  collection : Z;
  key : Z;
  field : Z
}.

Record places_arg_t := {
  collections_begin : strided_iterator_gt collection_e;
  keys_begin : strided_iterator_gt key_e;
  fields_begin : strided_iterator_gt str_view_e;
  count : nat
}.

(** [places_arg_t::operator[]]. *)
Definition places_at (m : memory) (p : places_arg_t) (i : nat) : place_t :=
  let collection :=
    if is_set (collections_begin p) then at_ m (collections_begin p) i
    else ustore_collection_main_k in
  let key := at_ m (keys_begin p) i in
  let field := if is_set (fields_begin p) then at_ m (fields_begin p) i else 0 in
  {| collection := collection; key := key; field := field |}.

(** [value_view_t]: where the payload starts and how long it is; the
    default one is null and empty. *)
Record value_view_t := {
  view_begin : Z;
  view_length : Z
}.

Definition empty_view : value_view_t := {| view_begin := 0; view_length := 0 |}.

Record contents_arg_t := {
  presences_begin : bits_view_t;
  offsets_begin : strided_iterator_gt length_e;
  lengths_begin : strided_iterator_gt length_e;
  contents_begin : strided_iterator_gt bytes_cptr_e;
  contents_count : nat;
  separator : byte
}.

(** [while (item[len++] != separator);] followed by [--len], with [len]
    an unsigned 32-bit counter.  The loop has no bound of its own: [fuel]
    is the number of bytes that may be inspected. *)
Fixpoint find_separator (fuel : nat) (m : memory) (item : Z) (len : Z) (sep : byte)
  : option Z :=
  match fuel with
  | O => None
  | S fuel' =>
      let c := m (item + len) in
      let len' := wrap 32 (len + 1) in
      if Byte.eqb c sep then Some (wrap 32 (len' - 1))
      else find_separator fuel' m item len' sep
  end.

(** [contents_arg_t::operator[]]. *)
Definition contents_at (fuel : nat) (m : memory) (c : contents_arg_t) (i : nat)
  : option value_view_t :=
  if negb (is_set (contents_begin c))
     || (at_ m (contents_begin c) i =? 0)
     || (bits_is_set (presences_begin c) && negb (bits_at m (presences_begin c) i))
  then Some empty_view
  else
    let begin := at_ m (contents_begin c) i in
    let off := if is_set (offsets_begin c) then at_ m (offsets_begin c) i else 0 in
    if is_set (lengths_begin c) then
      Some {| view_begin := begin + off; view_length := at_ m (lengths_begin c) i |}
    else if is_set (offsets_begin c) then
      Some {| view_begin := begin + off;
              view_length := wrap 32 (at_ m (offsets_begin c) (i + 1) - off) |}
    else
      len ← find_separator fuel m (begin + off) 0 (separator c);
      Some {| view_begin := begin + off; view_length := len |}.

Record scan_t := {
  scan_collection : Z;
  min_key : Z;
  limit : Z
}.

Record scans_arg_t := {
  collections : strided_iterator_gt collection_e;
  start_keys : strided_iterator_gt key_e;
  limits : strided_iterator_gt length_e;
  scans_count : nat
}.

(** [scans_arg_t::operator[]]. *)
Definition scans_at (m : memory) (a : scans_arg_t) (i : nat) : scan_t :=
  let collection :=
    if is_set (collections a) then at_ m (collections a) i
    else ustore_collection_main_k in
  let min_key := if is_set (start_keys a) then at_ m (start_keys a) i else - 2 ^ 63 in
  let limit := at_ m (limits a) i in
  {| scan_collection := collection; min_key := min_key; limit := limit |}.

Record find_edge_t := {
  find_collection : Z;
  vertex_id : Z;
  role : Z
}.

Record find_edges_t := {
  find_collections_begin : strided_iterator_gt collection_e;
  vertex_id_begin : strided_iterator_gt key_e;
  roles_begin : strided_iterator_gt vertex_role_e;
  find_count : nat
}.

(** [find_edges_t::operator[]]. *)
Definition find_edges_at (m : memory) (f : find_edges_t) (i : nat) : find_edge_t :=
  let collection :=
    if is_set (find_collections_begin f) then at_ m (find_collections_begin f) i
    else ustore_collection_main_k in
  let vertex_id := at_ m (vertex_id_begin f) i in
  let role :=
    if is_set (roles_begin f) then at_ m (roles_begin f) i
    else ustore_vertex_role_any_k in
  {| find_collection := collection; vertex_id := vertex_id; role := role |}.

Record edge_t := mk_edge {
  source_id : Z;
  target_id : Z;
  id : Z
}.

Record edges_range_gt := {
  source_ids : strided_range_gt key_e;
  target_ids : strided_range_gt key_e;
  edge_ids : strided_range_gt key_e
}.

(** The constructor from columns; [edges] is [None] when the argument is
    left to its default [{&ustore_default_edge_id_k, 1}]. *)
Definition edges_range_of (sources targets : strided_range_gt key_e)
    (edges : option (strided_range_gt key_e)) : edges_range_gt :=
  {| source_ids := sources;
     target_ids := targets;
     edge_ids := default (mk_range (of_pointer ustore_default_edge_id_addr) 1) edges |}.

Definition edges_size (r : edges_range_gt) : nat :=
  Nat.min (count_ (source_ids r)) (count_ (target_ids r)).

(** [edges_range_gt::operator[]]. *)
Definition edges_at (m : memory) (r : edges_range_gt) (i : nat) : edge_t :=
  {| source_id := range_at m (source_ids r) i;
     target_id := range_at m (target_ids r) i;
     id := range_at m (edge_ids r) i |}.

Definition same_collections_are_named
    (collections_begin : strided_iterator_gt collection_e) (m : memory) : bool :=
  is_set collections_begin
  && negb (at_ m collections_begin 0 =? ustore_collection_main_k).

End bundles.

(** *** Preflight validation *)

(** [(enum_value & ~allowed) == 0]. *)
Definition enum_is_subset (enum_value allowed : Z) : bool :=
  Z.land enum_value (Z.lnot allowed) =? 0.

(** Modelled from the spec: the error kinds of [status.hpp], which is not
    among the sources. *)
Inductive ustore_error_code_t :=
| args_wrong_k
| missing_collection_k
| conflict_k
| transaction_required_k
| unimplemented_k
| out_of_memory_k
| io_k
| corruption_k
| unknown_k.

(** [ustore_error_t]: null, or an error with its kind and message. *)
Definition ustore_error_t := option (ustore_error_code_t * string).

(** Modelled from the spec: [return_error_if_m] of [status.hpp] stores the
    error and returns from the calling function unless the condition
    holds; otherwise the function continues with [continue]. *)
Definition return_error_if_m (must_be_true : bool) (code : ustore_error_code_t)
    (message : string) (continue : ustore_error_t) : ustore_error_t :=
  if must_be_true then continue else Some (code, message).

Section validation.

(** The flags of [ustore_options_t], declared in [ustore.h]. *)
Variable ustore_option_transaction_dont_watch_k : Z.
Variable ustore_option_dont_discard_memory_k : Z.
Variable ustore_option_write_flush_k : Z.
Variable ustore_option_read_shared_memory_k : Z.
Variable ustore_option_scan_bulk_k : Z.

Definition write_allowed_options : Z :=
  Z.lor (Z.lor ustore_option_transaction_dont_watch_k
               ustore_option_dont_discard_memory_k)
        ustore_option_write_flush_k.

Definition read_allowed_options : Z :=
  Z.lor (Z.lor ustore_option_transaction_dont_watch_k
               ustore_option_dont_discard_memory_k)
        ustore_option_read_shared_memory_k.

Definition scan_allowed_options : Z :=
  Z.lor (Z.lor (Z.lor ustore_option_transaction_dont_watch_k
                      ustore_option_dont_discard_memory_k)
               ustore_option_read_shared_memory_k)
        ustore_option_scan_bulk_k.

(** The validators take everything but the error by value or by constant
    reference: the error is all they can change. *)
Definition validate_write (c_txn : Z) (places : places_arg_t)
    (contents : contents_arg_t) (c_options : Z) (c_error : ustore_error_t)
  : ustore_error_t :=
  let allowed_options := write_allowed_options in
  return_error_if_m (enum_is_subset c_options allowed_options)
    args_wrong_k "Invalid options!"
  (return_error_if_m (is_set (keys_begin places))
    args_wrong_k "No keys were provided!"
  (let remove_all := negb (is_set (contents_begin contents)) in
   if remove_all then
     return_error_if_m
       (negb (is_set (lengths_begin contents))
        && negb (is_set (offsets_begin contents)))
       args_wrong_k "Can't address NULLs!" c_error
   else c_error)).

Definition validate_read (c_txn : Z) (places : places_arg_t)
    (c_options : Z) (c_error : ustore_error_t) : ustore_error_t :=
  let allowed_options := read_allowed_options in
  return_error_if_m (enum_is_subset c_options allowed_options)
    args_wrong_k "Invalid options!"
  (return_error_if_m (is_set (keys_begin places))
    args_wrong_k "No keys were provided!" c_error).

Definition validate_scan (c_txn : Z) (args : scans_arg_t)
    (c_options : Z) (c_error : ustore_error_t) : ustore_error_t :=
  let allowed_options := scan_allowed_options in
  return_error_if_m (enum_is_subset c_options allowed_options)
    args_wrong_k "Invalid options!"
  (return_error_if_m (is_set (limits args))
    args_wrong_k "Full scans aren't supported - paginate!" c_error).

Definition validate_transaction_begin (c_txn : Z) (c_options : Z)
    (c_error : ustore_error_t) : ustore_error_t :=
  return_error_if_m (negb (c_txn =? 0))
    args_wrong_k "Transaction is uninitialized"
  (return_error_if_m (enum_is_subset c_options ustore_option_transaction_dont_watch_k)
    args_wrong_k "Invalid options!" c_error).

Definition validate_transaction_commit (c_txn : Z) (c_options : Z)
    (c_error : ustore_error_t) : ustore_error_t :=
  return_error_if_m (negb (c_txn =? 0))
    args_wrong_k "Transaction is uninitialized"
  (return_error_if_m (enum_is_subset c_options ustore_option_write_flush_k)
    args_wrong_k "Invalid options!" c_error).

End validation.

(** *** Notions for the statements *)

Definition is_args_wrong (e : ustore_error_t) : Prop :=
  exists message, e = Some (args_wrong_k, message).

(** Some flag of [c_options] is not among the [allowed] ones. *)
Definition has_flag_outside (c_options allowed : Z) : Prop :=
  exists j, 0 <= j /\ Z.testbit c_options j = true /\ Z.testbit allowed j = false.

(** A memory made of regions, each a base address and the bytes from there
    on; zero elsewhere. *)
Definition memory_of (regions : list (Z * list byte)) : memory :=
  fun a =>
    default x00
      (head (omap (fun r : Z * list byte =>
                     if (r.1 <=? a) && (a <? r.1 + Z.of_nat (length r.2))
                     then r.2 !! Z.to_nat (a - r.1) else None) regions)).

(** *** Layout of the contents *)

(** Modelled from the spec: [strided_iterator_gt::repeats] of [ranges.hpp]:
    the stride is zero, the first element is broadcast. *)
Definition repeats {e : element_t} (it : strided_iterator_gt e) : bool :=
  stride it =? 0.

(** [value_view_t::end]. *)
Definition view_end (v : value_view_t) : Z := view_begin v + view_length v.

(** [contents_arg_t::is_arrow]. *)
Definition is_arrow (c : contents_arg_t) : bool :=
  repeats (contents_begin c) && is_set (offsets_begin c)
  && negb (is_set (lengths_begin c)).

(** The loop of [is_continuous] from index [i] on, [todo] iterations left. *)
Fixpoint continuous_loop (fuel : nat) (m : memory) (c : contents_arg_t)
    (i todo : nat) (last : value_view_t) : option bool :=
  match todo with
  | O => Some true
  | S todo' =>
      value ← contents_at fuel m c i;
      if negb (view_begin value =? view_end last) then Some false
      else continuous_loop fuel m c (S i) todo' value
  end.

(** [contents_arg_t::is_continuous].  The loop runs from [1] until the
    index equals [size()], in 64-bit unsigned arithmetic: [size() - 1]
    iterations, counted modulo [2^64]. *)
Definition is_continuous (fuel : nat) (m : memory) (c : contents_arg_t) : option bool :=
  last ← contents_at fuel m c 0;
  continuous_loop fuel m c 1
    (Z.to_nat (wrap 64 (Z.of_nat (contents_count c) - 1))) last.

(** *** Edges given as an array of triples *)

(** Modelled from the spec: [edge_t] is three keys in a row, the source,
    the target and the identifier ([static_assert(sizeof(tuple_t) == 3 *
    sizeof(id_t))]); [strided_range_gt::members] of [ranges.hpp] gives the
    column of one member, with the stride of the triple. *)
Definition sizeof_edge_t : Z := 24.

(** [edges_range_gt(tuple_t* ptr, tuple_t* end)]. *)
Definition edges_range_of_tuples (ptr end_ : Z) : edges_range_gt :=
  let count := Z.to_nat ((end_ - ptr) / sizeof_edge_t) in
  {| source_ids := mk_range (mk_strided ptr sizeof_edge_t) count;
     target_ids := mk_range (mk_strided (ptr + 8) sizeof_edge_t) count;
     edge_ids := mk_range (mk_strided (ptr + 16) sizeof_edge_t) count |}.

(** The bytes of a triple, and of an array of triples. *)
Definition edge_bytes (e : edge_t) : list byte :=
  le_encode 8 (source_id e) ++ le_encode 8 (target_id e) ++ le_encode 8 (id e).

Definition edges_bytes (es : list edge_t) : list byte :=
  es ≫= edge_bytes.

(** The memory holds [bytes] from [base] on. *)
Definition holds (m : memory) (base : Z) (bytes : list byte) : Prop :=
  forall j b, bytes !! j = Some b -> m (base + Z.of_nat j) = b.

(** *** Arguments for the examples *)

(** Keys at address [64], contiguous; no collections, no fields. *)
Definition example_places : places_arg_t :=
  {| collections_begin := of_pointer 0;
     keys_begin := mk_strided 64 8;
     fields_begin := of_pointer 0;
     count := 2 |}.

(** The same without keys. *)
Definition example_places_without_keys : places_arg_t :=
  {| collections_begin := of_pointer 0;
     keys_begin := of_pointer 0;
     fields_begin := of_pointer 0;
     count := 2 |}.

(** One payload pointer at address [100], which points to ["hey"] and its
    terminator at address [200]; neither offsets nor lengths. *)
Definition example_memory : memory :=
  memory_of [(100, le_encode 8 200); (200, [x68; x65; x79; x00]);
             (400, le_encode 8 (2 ^ 63 - 1))].

Definition example_contents : contents_arg_t :=
  {| presences_begin := {| bits_begin := 0 |};
     offsets_begin := of_pointer 0;
     lengths_begin := of_pointer 0;
     contents_begin := mk_strided 100 8;
     contents_count := 1;
     separator := x00 |}.

(** No contents, yet lengths at address [300]. *)
Definition example_lengths_without_contents : contents_arg_t :=
  {| presences_begin := {| bits_begin := 0 |};
     offsets_begin := of_pointer 0;
     lengths_begin := mk_strided 300 4;
     contents_begin := of_pointer 0;
     contents_count := 2;
     separator := x00 |}.

(** Scans without limits. *)
Definition example_scans_without_limits : scans_arg_t :=
  {| collections := of_pointer 0;
     start_keys := mk_strided 64 8;
     limits := of_pointer 0;
     scans_count := 2 |}.

(** Vertices at address [64], neither collections nor roles. *)
Definition example_find_edges : find_edges_t :=
  {| find_collections_begin := of_pointer 0;
     vertex_id_begin := mk_strided 64 8;
     roles_begin := of_pointer 0;
     find_count := 2 |}.

(** The view of payload [i] in the Arrow layout. *)
Definition arrow_view (m : memory) (c : contents_arg_t) (i : nat) : value_view_t :=
  {| view_begin := at_ m (contents_begin c) 0 + at_ m (offsets_begin c) i;
     view_length :=
       wrap 32 (at_ m (offsets_begin c) (i + 1) - at_ m (offsets_begin c) i) |}.

(** The three identifiers of an edge are keys. *)
Definition edge_in_range (e : edge_t) : Prop :=
  key_in_range (source_id e) /\ key_in_range (target_id e) /\ key_in_range (id e).

(** One payload pointer at address [100] for all payloads, which points to
    address [200], and the offsets [0], [3] and [5] at address [500]. *)
Definition example_arrow_memory : memory :=
  memory_of [(100, le_encode 8 200);
             (500, le_encode 4 0 ++ le_encode 4 3 ++ le_encode 4 5)].

Definition example_arrow_contents : contents_arg_t :=
  {| presences_begin := {| bits_begin := 0 |};
     offsets_begin := mk_strided 500 4;
     lengths_begin := of_pointer 0;
     contents_begin := of_pointer 100;
     contents_count := 2;
     separator := x00 |}.

(** Two triples, and a memory that holds them at address [1000]. *)
Definition example_edges : list edge_t := [mk_edge 1 2 100; mk_edge 3 1 (-1)].

Definition example_edges_memory : memory :=
  memory_of [(1000, edges_bytes example_edges)].

End ranges_args.

(** ** The NetworkX view: [pybind_networkx.cpp] *)

Module networkx.
Import ranges_args.

(** The buffer that [g.ref().edges(n, ukv_vertex_role_any_k)] leaves in the
    arena is a list of [edge_t] triples; [source_ids], [target_ids] and
    [edge_ids] are the three columns of that buffer. *)

(** The loop of [neighbors] from index [i] on: [u] and [v] are references
    into the buffer, the swap rewrites the triple in place. *)
Fixpoint swap_loop (n : Z) (i todo : nat) (edges : list edge_t) : list edge_t :=
  match todo with
  | O => edges
  | S todo' =>
      match edges !! i with
      | None => swap_loop n (S i) todo' edges
      | Some e =>
          let u := source_id e in
          let v := target_id e in
          let edges' :=
            if u =? n then <[i := mk_edge v u (id e)]> edges else edges in
          swap_loop n (S i) todo' edges'
      end
  end.

(** [neighbors]: the [target_ids] column after the loop, which is what
    [wrap_into_buffer] exposes. *)
Definition neighbors (n : Z) (edges : list edge_t) : list Z :=
  let count := length edges in
  target_id <$> swap_loop n 0 count edges.

(** [successors] and [predecessors], on the buffers of the edges that
    leave and that reach [n]. *)
Definition successors (edges : list edge_t) : list Z := target_id <$> edges.
Definition predecessors (edges : list edge_t) : list Z := source_id <$> edges.

(** An edge is incident to [n] when [n] is one of its ends. *)
Definition incident (n : Z) (e : edge_t) : Prop :=
  source_id e = n \/ target_id e = n.

(** The end of [e] that is not [n]; [n] itself for a loop at [n]. *)
Definition other_end (n : Z) (e : edge_t) : Z :=
  if source_id e =? n then target_id e else source_id e.

(** The triple the loop leaves in place of [e]. *)
Definition swapped (n : Z) (e : edge_t) : edge_t :=
  if source_id e =? n then mk_edge (target_id e) (source_id e) (id e) else e.

End networkx.

(** ** The replay of [stress_linearizability.cpp] *)

Module stress_linearizability.

Inductive operation_code_t := insert_k | remove_k | select_k.

(** [operation_t]; [payload_t] and the sequence number are unsigned
    integers. *)
Record operation_t := mk_operation {
  key : Z;
  value : Z;
  sequence : Z;
  code : operation_code_t;
  commited : bool
}.

(** The choice of the code in [thread_logic]:
    [(random_generator() % parts_total_k) > part_inserts_ak]. *)
Definition choose_code (part_inserts_ak part_removes_ak : Z) (random : Z)
  : operation_code_t :=
  let parts_total_k := part_inserts_ak + part_removes_ak in
  if random mod parts_total_k >? part_inserts_ak then insert_k else remove_k.

(** The template arguments [test_writes] instantiates [linear_writes] with. *)
Definition test_writes_parts : list (Z * Z) :=
  [(1, 0); (2, 0); (3, 0); (4, 0); (10, 0);
   (1, 1); (2, 1); (3, 1); (4, 1); (10, 1);
   (10, 5); (30, 3)].

(** The comparator handed to [std::stable_sort]. *)
Definition sequence_less (a b : operation_t) : bool := sequence a <? sequence b.

(** [std::stable_sort] is library code: it returns the one arrangement that
    is ordered by the comparator and keeps equivalent elements in their
    order.  Here it is an insertion from the right, each element placed
    before the first one that is not less than it. *)
Fixpoint stable_insert (op : operation_t) (ops : list operation_t) : list operation_t :=
  match ops with
  | [] => [op]
  | x :: ops' =>
      if sequence_less x op then x :: stable_insert op ops' else op :: x :: ops'
  end.

Fixpoint stable_sort (ops : list operation_t) : list operation_t :=
  match ops with
  | [] => []
  | op :: ops' => stable_insert op (stable_sort ops')
  end.

(** One step of the replay loop on the sequential container. *)
Definition replay_one (sequential : gmap Z Z) (op : operation_t) : gmap Z Z :=
  if negb (commited op) then sequential
  else
    match code op with
    | insert_k => <[key op := value op]> sequential
    | remove_k => delete (key op) sequential
    | select_k => sequential
    end.

(** The replay of the main thread: sort, then apply what was committed. *)
Definition replay (sequential : gmap Z Z) (ops : list operation_t) : gmap Z Z :=
  foldl replay_one sequential ops.

Definition sorted_replay (sequential : gmap Z Z) (ops : list operation_t) : gmap Z Z :=
  replay sequential (stable_sort ops).

(** The operation writes to key [k] when replayed. *)
Definition writes_to (k : Z) (op : operation_t) : bool :=
  commited op && (key op =? k)
  && match code op with select_k => false | _ => true end.

(** What a write leaves under its key when replayed. *)
Definition written (op : operation_t) : option Z :=
  match code op with insert_k => Some (value op) | _ => None end.

(** The operation changes the sequential container when replayed. *)
Definition effective (op : operation_t) : bool :=
  commited op && match code op with select_k => false | _ => true end.

(** The order the sort establishes. *)
Definition sequence_le (a b : operation_t) : Prop := sequence a <= sequence b.

#[global] Instance operation_code_eq_dec : EqDecision operation_code_t.
Proof. solve_decision. Defined.

#[global] Instance operation_eq_dec : EqDecision operation_t.
Proof. solve_decision. Defined.

End stress_linearizability.

(** ** Facts on the encoding *)

Section encoding.

Lemma Z_of_byte_of_Z (z : Z) : Z_of_byte (byte_of_Z z) = z mod 256.
Proof.
  unfold Z_of_byte, byte_of_Z.
  assert (Hr : 0 <= z mod 256 < 256) by (apply Z.mod_pos_bound; lia).
  destruct (Byte.of_N (Z.to_N (z mod 256))) as [b|] eqn:E.
  - apply Byte.to_of_N in E. simpl. rewrite E. lia.
  - apply Byte.of_N_None_iff in E. lia.
Qed.

Lemma Z_of_byte_range (b : byte) : 0 <= Z_of_byte b < 256.
Proof.
  unfold Z_of_byte. pose proof (Byte.to_N_bounded b). lia.
Qed.

Lemma length_le_encode (w : nat) (x : Z) : length (le_encode w x) = w.
Proof. revert x. induction w as [|w IH]; intros x; simpl; auto. Qed.

Lemma le_decode_encode (w : nat) (x : Z) :
  le_decode (le_encode w x) = x mod 256 ^ Z.of_nat w.
Proof.
  revert x. induction w as [|w IH]; intros x.
  - simpl. now rewrite Z.mod_1_r.
  - cbn [le_encode le_decode]. rewrite IH, Z_of_byte_of_Z.
    replace (Z.of_nat (S w)) with (1 + Z.of_nat w) by lia.
    rewrite Z.pow_add_r, Z.pow_1_r by lia.
    assert (0 < 256 ^ Z.of_nat w) by (apply Z.pow_pos_nonneg; lia).
    rewrite Z.rem_mul_r by lia. reflexivity.
Qed.

Lemma le_decode_range (l : list byte) :
  0 <= le_decode l < 256 ^ Z.of_nat (length l).
Proof.
  induction l as [|b l IH].
  - simpl. lia.
  - cbn [le_decode length]. pose proof (Z_of_byte_range b).
    replace (Z.of_nat (S (length l))) with (1 + Z.of_nat (length l)) by lia.
    rewrite Z.pow_add_r, Z.pow_1_r by lia. nia.
Qed.

Lemma to_signed_wrap (k : Z) :
  key_in_range k -> to_signed ukv_key_bits (k mod 2 ^ ukv_key_bits) = k.
Proof.
  unfold key_in_range, to_signed, ukv_key_bits.
  change (2 ^ (64 - 1)) with 9223372036854775808.
  change (2 ^ 64) with 18446744073709551616.
  intros Hk.
  destruct (Z.ltb_spec (k mod 18446744073709551616) 9223372036854775808);
    Z.to_euclidean_division_equations; lia.
Qed.

End encoding.

Module key_comparator_facts.
Import key_comparator_t.

Lemma length_to_slice (k : Z) : length (to_slice k) = sizeof_ukv_key_t.
Proof. apply length_le_encode. Qed.

(** Reading back the slice of a key gives the key. *)
Lemma load_key_to_slice (k : Z) :
  key_in_range k -> load_key (to_slice k) = k.
Proof.
  intros Hk. unfold load_key, to_slice.
  rewrite firstn_all2 by (rewrite length_le_encode; lia).
  rewrite le_decode_encode.
  change (256 ^ Z.of_nat sizeof_ukv_key_t) with (2 ^ ukv_key_bits).
  now apply to_signed_wrap.
Qed.

Lemma to_slice_inj (a b : Z) :
  key_in_range a -> key_in_range b -> to_slice a = to_slice b -> a = b.
Proof.
  intros Ha Hb E.
  rewrite <- (load_key_to_slice a Ha), <- (load_key_to_slice b Hb).
  now rewrite E.
Qed.

(** The comparator on arbitrary slices, in terms of the integers read. *)
Lemma Compare_spec (a b : Slice) :
  (Compare a b = 0 <-> load_key a = load_key b) /\
  (Compare a b < 0 <-> load_key a < load_key b) /\
  (Compare a b > 0 <-> load_key a > load_key b).
Proof.
  unfold Compare.
  destruct (Z.eqb_spec (load_key a) (load_key b)) as [E|E];
    [|destruct (Z.ltb_spec (load_key a) (load_key b))]; lia.
Qed.

(** C7: on the slices of two keys, [Compare] is [0] exactly for equal
    keys, negative exactly when the first key is the smaller signed
    integer and positive exactly when it is the larger one.  The order is
    not the bytewise one: keys [1] and [256], and keys [-1] and [0], are
    ordered one way by [Compare] and the other way by [memcmp]. *)
Theorem Compare_numeric (a b : Z) :
  key_in_range a -> key_in_range b ->
  (Compare (to_slice a) (to_slice b) = 0 <-> a = b) /\
  (Compare (to_slice a) (to_slice b) < 0 <-> a < b) /\
  (Compare (to_slice a) (to_slice b) > 0 <-> a > b) /\
  (Compare (to_slice 1) (to_slice 256) < 0 /\
   bytewise_compare (to_slice 1) (to_slice 256) > 0) /\
  (Compare (to_slice (-1)) (to_slice 0) < 0 /\
   bytewise_compare (to_slice (-1)) (to_slice 0) > 0).
Proof.
  intros Ha Hb.
  pose proof (Compare_spec (to_slice a) (to_slice b)) as H.
  rewrite (load_key_to_slice a Ha), (load_key_to_slice b Hb) in H.
  destruct H as (H0 & H1 & H2).
  repeat split; try tauto; vm_compute; congruence.
Qed.

Lemma Compare_numeric_witness :
  key_in_range (-5) /\ key_in_range 300 /\
  (Compare (to_slice (-5)) (to_slice 300) < 0 <-> -5 < 300).
Proof.
  assert (Ha : key_in_range (-5)) by (unfold key_in_range, ukv_key_bits; simpl; lia).
  assert (Hb : key_in_range 300) by (unfold key_in_range, ukv_key_bits; simpl; lia).
  split; [exact Ha|]. split; [exact Hb|].
  exact (proj1 (proj2 (Compare_numeric (-5) 300 Ha Hb))).
Defined.

End key_comparator_facts.

(** ** The output tape *)

Module tape_facts.
Import key_comparator_t leveldb ukv_leveldb.

Lemma take_le_encode (n m : nat) (x : Z) :
  take n (le_encode (n + m) x) = le_encode n x.
Proof.
  revert x. induction n as [|n IH]; intros x; simpl.
  - now rewrite take_0.
  - now rewrite IH.
Qed.

Lemma wrap_wrap (w x : Z) : wrap w (wrap w x) = wrap w x.
Proof.
  unfold wrap. destruct (Z.eq_dec (2 ^ w) 0) as [E|E].
  - rewrite E. now rewrite !Z.mod_0_r.
  - now rewrite Z.mod_mod.
Qed.

Lemma length_memcpy (t : list byte) (off : nat) (src : list byte) :
  (off + length src <= length t)%nat -> length (memcpy t off src) = length t.
Proof.
  intros H. unfold memcpy. rewrite !length_app, length_take, length_drop. lia.
Qed.

Lemma memcpy_lookup (t : list byte) (off : nat) (src : list byte) (k : nat) :
  (off + length src <= length t)%nat ->
  memcpy t off src !! k =
    if decide (off <= k < off + length src)%nat then src !! (k - off)%nat else t !! k.
Proof.
  intros H. unfold memcpy.
  destruct (decide (k < off)%nat) as [Hk|Hk].
  - rewrite lookup_app_l by (rewrite length_take; lia).
    rewrite lookup_take_lt by lia. case_decide; [lia|done].
  - rewrite lookup_app_r by (rewrite length_take; lia).
    rewrite length_take, Nat.min_l by lia.
    destruct (decide (k < off + length src)%nat) as [Hs|Hs].
    + rewrite lookup_app_l by lia. case_decide; [done|lia].
    + rewrite lookup_app_r by lia. rewrite lookup_drop.
      case_decide; [lia|]. f_equal. lia.
Qed.

(** Appending at the end of the tape: the resize followed by the copy. *)
Lemma memcpy_at_end (t src : list byte) :
  memcpy (prepare_memory t (length t + length src)) (length t) src = t ++ src.
Proof.
  unfold memcpy, prepare_memory. rewrite resize_spec.
  rewrite (take_ge t) by lia.
  rewrite take_app_length.
  rewrite drop_ge; [now rewrite app_nil_r|].
  rewrite length_app, length_replicate. lia.
Qed.

Lemma load_val_len_ext (t1 t2 : list byte) (j : nat) :
  (forall k, 4 * j <= k < 4 * j + 4 -> t1 !! k = t2 !! k)%nat ->
  load_val_len t1 0 j = load_val_len t2 0 j.
Proof.
  intros H. unfold load_val_len. f_equal. apply list_eq. intros k.
  change sizeof_ukv_val_len_t with 4%nat.
  destruct (decide (k < 4)%nat) as [Hk|Hk].
  - rewrite !lookup_take_lt, !lookup_drop by lia. apply H. lia.
  - rewrite !lookup_take_ge by lia. done.
Qed.

Lemma load_store_same (t : list byte) (i : nat) (x : Z) :
  (4 * i + 4 <= length t)%nat ->
  load_val_len (store_val_len t 0 i x) 0 i = wrap ukv_val_len_bits x.
Proof.
  intros H. unfold load_val_len, store_val_len, memcpy.
  change sizeof_ukv_val_len_t with 4%nat. simpl plus.
  rewrite drop_app_length' by (rewrite length_take; lia).
  rewrite take_app_length' by (now rewrite length_le_encode).
  rewrite le_decode_encode. reflexivity.
Qed.

Lemma load_store_other (t : list byte) (i j : nat) (x : Z) :
  (4 * i + 4 <= length t)%nat -> i <> j ->
  load_val_len (store_val_len t 0 i x) 0 j = load_val_len t 0 j.
Proof.
  intros H Hij. apply load_val_len_ext. intros k Hk.
  unfold store_val_len. change sizeof_ukv_val_len_t with 4%nat.
  rewrite memcpy_lookup by (rewrite length_le_encode; lia).
  rewrite length_le_encode. case_decide; [lia|done].
Qed.

Lemma load_app (t v : list byte) (j : nat) :
  (4 * j + 4 <= length t)%nat ->
  load_val_len (t ++ v) 0 j = load_val_len t 0 j.
Proof.
  intros H. apply load_val_len_ext. intros k Hk.
  apply lookup_app_l. lia.
Qed.

Lemma drop_store (t : list byte) (i n : nat) (x : Z) :
  (i < n)%nat -> (4 * n <= length t)%nat ->
  drop (4 * n) (store_val_len t 0 i x) = drop (4 * n) t.
Proof.
  intros Hi Hn. apply list_eq. intros k. rewrite !lookup_drop.
  unfold store_val_len. change sizeof_ukv_val_len_t with 4%nat.
  rewrite memcpy_lookup by (rewrite length_le_encode; lia).
  rewrite length_le_encode. case_decide; [lia|done].
Qed.

Lemma length_store (t : list byte) (i : nat) (x : Z) :
  (4 * i + 4 <= length t)%nat -> length (store_val_len t 0 i x) = length t.
Proof.
  intros H. unfold store_val_len. apply length_memcpy.
  rewrite length_le_encode. change sizeof_ukv_val_len_t with 4%nat. lia.
Qed.

Lemma load_zeros (n j : nat) :
  load_val_len (replicate (4 * n) x00) 0 j = 0.
Proof.
  unfold load_val_len. change sizeof_ukv_val_len_t with 4%nat.
  rewrite drop_replicate, take_replicate.
  generalize (Nat.min 4 (4 * n - (0 + 4 * j)))%nat. intros k.
  induction k as [|k IH]; simpl; [done|]. rewrite IH. reflexivity.
Qed.

Lemma memcpy_nil (t : list byte) (off : nat) : memcpy t off [] = t.
Proof.
  unfold memcpy. simpl. rewrite Nat.add_0_r. apply take_drop.
Qed.

Lemma memcpy_whole (t src : list byte) :
  length src = length t -> memcpy t 0 src = src.
Proof.
  intros H. unfold memcpy. rewrite take_0. simpl.
  rewrite drop_ge by lia. apply app_nil_r.
Qed.

End tape_facts.

(** ** The write path *)

Module write_facts.
Import key_comparator_t leveldb ukv_leveldb.

Lemma fill_batch_one (tasks : write_tasks_soa_t) :
  fill_batch tasks 0 1 [] =
    [if is_deleted (tasks 0%nat)
     then BatchDelete (to_slice (key (tasks 0%nat)))
     else BatchPut (to_slice (key (tasks 0%nat))) (view (tasks 0%nat))].
Proof. simpl. now destruct (is_deleted (tasks 0%nat)). Qed.

(** A batch of one task: the two paths agree on the database and on the
    error they leave. *)
Lemma write_one_many_one (db : DB) (tasks : write_tasks_soa_t)
    (options : WriteOptions) (c_error : ukv_error_t) :
  write_one db tasks 1 options c_error = write_many db tasks 1 options c_error.
Proof.
  unfold write_one, write_many. rewrite fill_batch_one.
  unfold Put, Delete. now destruct (is_deleted (tasks 0%nat)).
Qed.

Lemma ukv_write_dispatch (flush : Z) (db : DB) (tasks : write_tasks_soa_t)
    (n : nat) (c_options : Z) (c_error : ukv_error_t) :
  ukv_write flush db tasks n c_options c_error =
    (let options := {| sync := negb (Z.land c_options flush =? 0) |} in
     if decide (n = 1%nat) then write_one db tasks n options c_error
     else write_many db tasks n options c_error).
Proof.
  unfold ukv_write. destruct (decide (n = 1%nat)) as [->|Hn].
  - reflexivity.
  - apply Nat.eqb_neq in Hn. now rewrite Hn.
Qed.

(** C9: on a batch of one task the direct [Put] or [Delete] of [write_one]
    and the one-entry [WriteBatch] of [write_many] leave the same database
    and the same error, and [ukv_write] calls [write_one] exactly when the
    number of keys is one, [write_many] otherwise. *)
Theorem write_one_as_write_many (flush : Z) (db : DB) (tasks : write_tasks_soa_t)
    (n : nat) (options : WriteOptions) (c_options : Z) (c_error : ukv_error_t) :
  write_one db tasks 1 options c_error = write_many db tasks 1 options c_error /\
  ukv_write flush db tasks n c_options c_error =
    (let options := {| sync := negb (Z.land c_options flush =? 0) |} in
     if decide (n = 1%nat) then write_one db tasks n options c_error
     else write_many db tasks n options c_error).
Proof.
  split; [apply write_one_many_one|apply ukv_write_dispatch].
Qed.

(** A write on a database in trouble reports the failure and changes
    nothing, on either path. *)
Lemma write_many_trouble (db : DB) (tasks : write_tasks_soa_t) (n : nat)
    (options : WriteOptions) (c_error : ukv_error_t) (f : Failure) :
  trouble db = Some f ->
  (write_many db tasks n options c_error).1 = db /\
  is_Some (write_many db tasks n options c_error).2.
Proof.
  intros Hf. unfold write_many, Write. rewrite Hf. simpl. split; [done|].
  destruct f; simpl; eauto.
Qed.

End write_facts.

(** ** Entry points without support *)

Module unsupported_facts.
Import leveldb ukv_leveldb.

(** C8: [ukv_collection_open], [ukv_collection_remove], [ukv_txn_begin] and
    [ukv_txn_commit] store their "not supported" message in the error and
    leave the database, and the handle they were to produce, as they
    were: no collection and no transaction comes out of them. *)
Theorem unsupported_leave_store (db : DB) (name config : string)
    (c_col c_txn : out_ptr) (seq : nat) (c_options : Z) (c_error : ukv_error_t) :
  ukv_collection_open db name config c_col c_error =
    (db, c_col, Some "Collections not supported by LevelDB!"%string) /\
  ukv_collection_remove db name c_error =
    (db, Some "Collections not supported by LevelDB!"%string) /\
  ukv_txn_begin db seq c_options c_txn c_error =
    (db, c_txn, Some "Transactions not supported by LevelDB!"%string) /\
  ukv_txn_commit db c_txn c_options c_error =
    (db, Some "Transactions not supported by LevelDB!"%string).
Proof. repeat split. Qed.

End unsupported_facts.

(** ** The read path *)

Module read_facts.
Import key_comparator_t leveldb ukv_leveldb tape_facts.

Section reads.

Variable db : DB.
Variable tasks : read_tasks_soa_t.
Variable options : ReadOptions.
Hypothesis healthy : trouble db = None.

Local Abbreviation stored := (stored db tasks).
Local Abbreviation found_values := (found_values db tasks).

Lemma Get_stored (j : nat) (v0 : list byte) :
  Get options (to_slice (rkey (tasks j))) v0 db =
    match stored j with Some v => (OK, v) | None => (NotFound, v0) end.
Proof. unfold Get, ukv_leveldb.stored. now rewrite healthy. Qed.

(** [read_one] on an absent key: the sentinel, and no byte of value. *)
Lemma read_one_absent (n : nat) (fr : read_frame) :
  c_error fr = None -> value fr = [] -> stored 0 = None ->
  let fr' := read_one db tasks n options fr in
  found_length fr' 0 = Some ukv_val_len_missing_k /\
  length (tape fr') = sizeof_ukv_size_t /\
  c_error fr' = None.
Proof.
  intros He Hv Hs. unfold read_one. rewrite Get_stored, Hs, Hv, He.
  cbn [IsNotFound negb length]. cbv zeta. rewrite memcpy_nil.
  rewrite memcpy_whole
    by (unfold prepare_memory; now rewrite length_resize, length_le_encode).
  unfold found_length. cbn [c_found_lengths tape c_error].
  split; [reflexivity|split; [apply length_le_encode|done]].
Qed.

(** [read_one] on a present key: its length and its bytes. *)
Lemma read_one_present (n : nat) (fr : read_frame) (v : list byte) :
  c_error fr = None -> stored 0 = Some v ->
  Z.of_nat (length v) < 2 ^ ukv_val_len_bits ->
  let fr' := read_one db tasks n options fr in
  found_length fr' 0 = Some (Z.of_nat (length v)) /\
  found_bytes fr' 0 (length v) = Some v /\
  c_error fr' = None.
Proof.
  intros He Hs Hlen. unfold read_one. rewrite Get_stored, Hs, He.
  cbn [IsNotFound negb export_error ok]. cbv zeta.
  set (enc := le_encode sizeof_ukv_size_t (wrap ukv_size_bits (Z.of_nat (length v)))).
  set (r := prepare_memory (tape fr) (sizeof_ukv_size_t + length v)).
  assert (Henc : length enc = 8%nat) by apply length_le_encode.
  assert (Hr : length r = (8 + length v)%nat) by apply length_resize.
  assert (Hm : length (memcpy r 0 enc) = (8 + length v)%nat)
    by (rewrite length_memcpy; lia).
  assert (E : memcpy (memcpy r 0 enc) sizeof_ukv_size_t v = enc ++ v).
  { apply list_eq. intros k. change sizeof_ukv_size_t with 8%nat.
    rewrite memcpy_lookup by lia.
    case_decide as Hk.
    - rewrite lookup_app_r by lia. now rewrite Henc.
    - rewrite memcpy_lookup by lia.
      rewrite Henc. case_decide as Hk2.
      + rewrite lookup_app_l by lia. f_equal. lia.
      + rewrite !lookup_ge_None_2; [done| |];
          rewrite ?length_app, ?Hr, ?Henc; lia. }
  rewrite E. unfold found_length, found_bytes.
  cbn [c_found_lengths c_found_values tape c_error].
  split; [|split; [|done]].
  - f_equal. unfold load_val_len.
    change (0 + sizeof_ukv_val_len_t * 0)%nat with 0%nat. rewrite drop_0.
    change sizeof_ukv_val_len_t with 4%nat.
    rewrite take_app_le by lia.
    unfold enc. change sizeof_ukv_size_t with (4 + 4)%nat.
    rewrite take_le_encode, le_decode_encode.
    unfold wrap, ukv_size_bits. unfold ukv_val_len_bits in Hlen.
    change (256 ^ Z.of_nat 4) with (2 ^ 32).
    rewrite (Z.mod_small (Z.of_nat (length v)) (2 ^ 64)) by lia.
    apply Z.mod_small. lia.
  - f_equal. rewrite Nat.add_0_r.
    rewrite drop_app_length' by (now rewrite Henc).
    now rewrite firstn_all.
Qed.

(** The loop of [read_many]: the slot of a found key receives the length
    of its value, the slot of an absent key is left as it was, the
    values found are appended in order, the output pointers are not
    assigned. *)
Lemma read_many_loop_spec (n : nat) (todo : nat) :
  forall (i : nat) (fr : read_frame),
  c_error fr = None -> (i + todo <= n)%nat -> (4 * n <= length (tape fr))%nat ->
  let fr' := read_many_loop db tasks options i todo fr in
  c_error fr' = None /\
  c_found_lengths fr' = c_found_lengths fr /\
  c_found_values fr' = c_found_values fr /\
  drop (4 * n) (tape fr') = drop (4 * n) (tape fr) ++ found_values i todo /\
  forall j, (j < n)%nat ->
    load_val_len (tape fr') 0 j =
      if decide (i <= j < i + todo)%nat then
        match stored j with
        | Some v => wrap ukv_val_len_bits (Z.of_nat (length v))
        | None => load_val_len (tape fr) 0 j
        end
      else load_val_len (tape fr) 0 j.
Proof.
  induction todo as [|todo IH]; intros i fr He Hi Hn.
  - simpl. rewrite app_nil_r. repeat split; try done.
    intros j Hj. case_decide; [lia|done].
  - cbn [read_many_loop found_values]. rewrite Get_stored.
    destruct (stored i) as [v|] eqn:Hs.
    + cbn [IsNotFound export_error ok]. rewrite He. cbv zeta.
      rewrite memcpy_at_end.
      set (t1 := store_val_len (tape fr ++ v) 0 i
                   (wrap ukv_val_len_bits (Z.of_nat (length v)))).
      assert (Hl1 : length t1 = length (tape fr ++ v)).
      { apply length_store. rewrite length_app. lia. }
      rewrite length_app in Hl1.
      specialize (IH (S i) (mkFrame v (c_found_lengths fr) (c_found_values fr) t1 None)).
      cbn [c_error tape c_found_lengths c_found_values] in IH.
      destruct IH as (E1 & E2 & E3 & E4 & E5); [done|lia|lia|].
      repeat split; try done.
      * rewrite E4. unfold t1.
        rewrite drop_store by (rewrite ?length_app; lia).
        rewrite drop_app_le by lia. cbn [default]. now rewrite <- app_assoc.
      * intros j Hj. rewrite (E5 j Hj).
        destruct (decide (j = i)) as [->|Hji].
        -- rewrite decide_False by lia. rewrite decide_True by lia.
           rewrite Hs. unfold t1.
           rewrite load_store_same by (rewrite length_app; lia).
           apply wrap_wrap.
        -- assert (Hother : load_val_len t1 0 j = load_val_len (tape fr) 0 j).
           { unfold t1. rewrite load_store_other by (rewrite ?length_app; lia).
             apply load_app. lia. }
           rewrite Hother.
           destruct (decide (S i <= j < S i + todo)%nat);
             destruct (decide (i <= j < i + S todo)%nat); try lia; done.
    + cbn [IsNotFound].
      specialize (IH (S i) (mkFrame (value fr) (c_found_lengths fr)
                              (c_found_values fr) (tape fr) (c_error fr))).
      cbn [c_error tape c_found_lengths c_found_values] in IH.
      destruct IH as (E1 & E2 & E3 & E4 & E5); [done|lia|lia|].
      repeat split; try done.
      intros j Hj. rewrite (E5 j Hj).
      destruct (decide (j = i)) as [->|Hji].
      -- rewrite decide_False by lia. rewrite decide_True by lia.
         now rewrite Hs.
      -- destruct (decide (S i <= j < S i + todo)%nat);
           destruct (decide (i <= j < i + S todo)%nat); try lia; done.
Qed.

(** [read_many]: what the call leaves on the tape and in the output
    pointers.  The array of lengths is at the start of the tape, the
    values found follow it in the order of the keys; an absent key has
    length [0] and the output pointers are those of the caller. *)
Lemma read_many_spec (n : nat) (fr : read_frame) :
  c_error fr = None ->
  let fr' := read_many db tasks n options fr in
  c_error fr' = None /\
  c_found_lengths fr' = c_found_lengths fr /\
  c_found_values fr' = c_found_values fr /\
  drop (4 * n) (tape fr') = found_values 0 n /\
  forall j, (j < n)%nat ->
    load_val_len (tape fr') 0 j =
      match stored j with
      | Some v => wrap ukv_val_len_bits (Z.of_nat (length v))
      | None => 0
      end.
Proof.
  intros He. unfold read_many. rewrite He.
  change sizeof_ukv_val_len_t with 4%nat.
  assert (E : memcpy (prepare_memory (tape fr) (4 * n)) 0 (replicate (4 * n) x00)
              = replicate (4 * n) x00).
  { unfold memcpy, prepare_memory. rewrite take_0, length_replicate.
    rewrite drop_ge by (rewrite length_resize; lia). now rewrite app_nil_r. }
  rewrite E.
  pose proof (read_many_loop_spec n n 0
                (mkFrame (value fr) (c_found_lengths fr) (c_found_values fr)
                   (replicate (4 * n) x00) None)) as H.
  cbn [c_error tape c_found_lengths c_found_values] in H.
  destruct H as (E1 & E2 & E3 & E4 & E5);
    [done|lia|rewrite length_replicate; lia|].
  repeat split; try done.
  - rewrite E4. rewrite drop_ge by (rewrite length_replicate; lia). done.
  - intros j Hj. rewrite (E5 j Hj). rewrite decide_True by lia.
    now rewrite load_zeros.
Qed.

End reads.

(** [ukv_read] of one key: the sentinel for an absent key, the length and
    the bytes for a present one. *)
Lemma ukv_read_one (db : DB) (tasks : read_tasks_soa_t)
    (out_lengths out_values : out_ptr) (c_arena : option stl_arena_t) :
  trouble db = None ->
  let fr := ukv_read db tasks 1 out_lengths out_values c_arena None in
  match ukv_leveldb.stored db tasks 0 with
  | None => found_length fr 0 = Some ukv_val_len_missing_k
  | Some v =>
      Z.of_nat (length v) < 2 ^ ukv_val_len_bits ->
      found_length fr 0 = Some (Z.of_nat (length v)) /\
      found_bytes fr 0 (length v) = Some v
  end.
Proof.
  intros Hh. unfold ukv_read. cbn [Nat.eqb].
  set (options := {| verify_checksums := false; fill_cache := true |}).
  set (fr0 := mkFrame [] out_lengths out_values (output_tape (cast_arena c_arena)) None).
  destruct (ukv_leveldb.stored db tasks 0) as [v|] eqn:Hs.
  - intros Hl.
    destruct (read_one_present db tasks options Hh 1 fr0 v eq_refl Hs Hl)
      as (E1 & E2 & _).
    now split.
  - now destruct (read_one_absent db tasks options Hh 1 fr0 eq_refl eq_refl Hs).
Qed.

(** [ukv_read] of any other number of keys: the slot of an absent key holds
    [0], and the output pointers are those of the caller. *)
Lemma ukv_read_many_absent (db : DB) (tasks : read_tasks_soa_t) (n : nat)
    (out_lengths out_values : out_ptr) (c_arena : option stl_arena_t) (j : nat) :
  trouble db = None -> n <> 1%nat -> (j < n)%nat ->
  ukv_leveldb.stored db tasks j = None ->
  let fr := ukv_read db tasks n out_lengths out_values c_arena None in
  load_val_len (tape fr) 0 j = 0 /\
  c_found_lengths fr = out_lengths /\ c_found_values fr = out_values.
Proof.
  intros Hh Hn Hj Hs. unfold ukv_read. apply Nat.eqb_neq in Hn. rewrite Hn.
  set (options := {| verify_checksums := false; fill_cache := true |}).
  set (fr0 := mkFrame [] out_lengths out_values (output_tape (cast_arena c_arena)) None).
  destruct (read_many_spec db tasks options Hh n fr0 eq_refl)
    as (_ & E2 & E3 & _ & E5).
  rewrite (E5 j Hj), Hs. now repeat split.
Qed.

(** C1, on a database that holds the empty value under key [7] and nothing
    under key [8], read for the keys [7] and [8]: the call reports no
    error, and the array of lengths it builds has [0] for the absent key,
    as it has for the empty value, where the sentinel
    [ukv_val_len_missing_k] is expected; the output pointer for the
    lengths is not assigned either. *)
Theorem read_many_absent_length_zero :
  let db := mkDB {[ 7 := [] ]} None in
  let tasks := read_tasks_of [7; 8] in
  let fr := ukv_read db tasks 2 Untouched Untouched None None in
  ukv_leveldb.stored db tasks 0 = Some [] /\
  ukv_leveldb.stored db tasks 1 = None /\
  c_error fr = None /\
  load_val_len (tape fr) 0 0 = 0 /\
  load_val_len (tape fr) 0 1 = 0 /\
  load_val_len (tape fr) 0 1 <> ukv_val_len_missing_k /\
  found_length fr 1 = None.
Proof. vm_compute. repeat split; congruence. Qed.

End read_facts.

(** ** Writing a batch, then reading it *)

Module roundtrip_facts.
Import key_comparator_t key_comparator_facts leveldb ukv_leveldb.
Import tape_facts write_facts read_facts.

Lemma fill_batch_spec (tasks : write_tasks_soa_t) (todo : nat) :
  forall (i : nat) (batch : WriteBatch),
  fill_batch tasks i todo batch = batch ++ (op_of_task ∘ tasks <$> seq i todo).
Proof.
  induction todo as [|todo IH]; intros i batch.
  - simpl. now rewrite app_nil_r.
  - cbn [fill_batch seq fmap list_fmap].
    assert (E : (if is_deleted (tasks i)
                 then batch ++ [BatchDelete (to_slice (key (tasks i)))]
                 else batch ++ [BatchPut (to_slice (key (tasks i))) (view (tasks i))])
                = batch ++ [op_of_task (tasks i)]).
    { unfold op_of_task. now destruct (is_deleted (tasks i)). }
    rewrite E, IH. now rewrite <- app_assoc.
Qed.

Lemma foldl_apply_other (ops : WriteBatch) (k : Z) :
  forall t : gmap Z (list byte),
  Forall (fun op => op_key op <> k) ops ->
  foldl apply_op t ops !! k = t !! k.
Proof.
  induction ops as [|op ops IH]; intros t H; [done|].
  inversion H as [|? ? Hop Hops]; subst. cbn [foldl].
  rewrite IH by done. destruct op; simpl in *.
  - now apply lookup_insert_ne.
  - now apply lookup_delete_ne.
Qed.

Lemma foldl_apply_put (pre post : WriteBatch) (key value : Slice)
    (t : gmap Z (list byte)) :
  Forall (fun op => op_key op <> load_key key) post ->
  foldl apply_op t (pre ++ BatchPut key value :: post) !! load_key key = Some value.
Proof.
  intros H. rewrite foldl_app. cbn [foldl].
  rewrite foldl_apply_other by done. cbn [apply_op].
  apply lookup_insert_eq.
Qed.

Section batch.

Variable batch : list (Z * list byte).
Hypothesis keys_in_range : Forall key_in_range batch.*1.
Hypothesis keys_distinct : NoDup batch.*1.

Lemma batch_ops :
  op_of_task ∘ write_tasks_of batch <$> seq 0 (length batch) =
    (fun kv : Z * list byte => BatchPut (to_slice kv.1) kv.2) <$> batch.
Proof.
  apply list_eq. intros i. rewrite !list_lookup_fmap.
  destruct (batch !! i) as [[k v]|] eqn:E.
  - rewrite lookup_seq_lt by (eapply lookup_lt_Some; eauto).
    simpl. unfold write_tasks_of, op_of_task. now rewrite E.
  - rewrite lookup_seq_ge by (now apply lookup_ge_None).
    done.
Qed.

Lemma batch_key_in_range (i : nat) (k : Z) (v : list byte) :
  batch !! i = Some (k, v) -> key_in_range k.
Proof.
  intros Hi. eapply (Forall_lookup_1 _ _ i k keys_in_range).
  now rewrite list_lookup_fmap, Hi.
Qed.

(** After the batch is written every key holds its value. *)
Lemma write_many_lookup (db : DB) (options : WriteOptions)
    (c_error : ukv_error_t) (i : nat) (k : Z) (v : list byte) :
  trouble db = None -> batch !! i = Some (k, v) ->
  let r := write_many db (write_tasks_of batch) (length batch) options c_error in
  table r.1 !! k = Some v /\ trouble r.1 = None /\ r.2 = c_error.
Proof.
  intros Hh Hi. unfold write_many, Write. rewrite Hh.
  cbn [fst snd export_error ok trouble table].
  split; [|done].
  rewrite fill_batch_spec, app_nil_l, batch_ops.
  rewrite <- (take_drop_middle batch i (k, v) Hi).
  rewrite fmap_app, fmap_cons. cbn [fst snd].
  pose proof (batch_key_in_range i k v Hi) as Hk.
  rewrite <- (load_key_to_slice k Hk) at 1.
  apply foldl_apply_put.
  rewrite Forall_fmap. apply Forall_lookup. intros j [k' v'] Hj. simpl.
  rewrite lookup_drop in Hj.
  pose proof (batch_key_in_range _ k' v' Hj) as Hk'.
  rewrite (load_key_to_slice k Hk), (load_key_to_slice k' Hk').
  intros ->.
  assert (Hne : (S i + j)%nat = i).
  { eapply NoDup_lookup; [exact keys_distinct| |];
      rewrite list_lookup_fmap; [rewrite Hj|rewrite Hi]; done. }
  lia.
Qed.

End batch.

Lemma write_many_healthy (db : DB) (tasks : write_tasks_soa_t) (n : nat)
    (options : WriteOptions) (c_error : ukv_error_t) :
  trouble db = None ->
  trouble (write_many db tasks n options c_error).1 = None /\
  (write_many db tasks n options c_error).2 = c_error.
Proof. intros H. unfold write_many, Write. now rewrite H. Qed.

Lemma found_values_all (db : DB) (tasks : read_tasks_soa_t) (vs : list (list byte)) :
  forall i n : nat,
  n = length vs ->
  (forall j v, vs !! j = Some v -> ukv_leveldb.stored db tasks (i + j) = Some v) ->
  ukv_leveldb.found_values db tasks i n = concat vs.
Proof.
  induction vs as [|v vs IH]; intros i n -> H; [done|].
  cbn [length ukv_leveldb.found_values concat].
  rewrite <- (Nat.add_0_r i) at 1. rewrite (H 0%nat v eq_refl). cbn [default].
  f_equal. apply IH; [done|]. intros j w Hj.
  replace (S i + j)%nat with (i + S j)%nat by lia. now apply H.
Qed.

Section batch_read.

Variable batch : list (Z * list byte).
Hypothesis keys_in_range : Forall key_in_range batch.*1.
Hypothesis keys_distinct : NoDup batch.*1.
Hypothesis lengths_fit :
  Forall (fun kv : Z * list byte => Z.of_nat (length kv.2) < 2 ^ ukv_val_len_bits) batch.

Lemma stored_after_write (db : DB) (options : WriteOptions) (i : nat)
    (k : Z) (v : list byte) :
  trouble db = None -> batch !! i = Some (k, v) ->
  ukv_leveldb.stored
    (write_many db (write_tasks_of batch) (length batch) options None).1
    (read_tasks_of batch.*1) i = Some v.
Proof.
  intros Hh Hi. unfold ukv_leveldb.stored, read_tasks_of. cbn [rkey].
  rewrite list_lookup_fmap, Hi. cbn [fmap option_fmap option_map default from_option fst]. unfold id.
  rewrite (load_key_to_slice k) by (eapply batch_key_in_range; eauto).
  now apply (write_many_lookup batch keys_in_range keys_distinct db options None i k v).
Qed.

(** X7: a batch of any size but one, written and read back: the lengths and
    the values are on the tape, the lengths first and the values after
    them in the order of the keys, and the two output pointers are what
    the caller had put there. *)
Lemma write_then_read_many (flush : Z) (db : DB) (c_options : Z)
    (out_lengths out_values : out_ptr) (c_arena : option stl_arena_t) :
  trouble db = None -> length batch <> 1%nat ->
  let w := ukv_write flush db (write_tasks_of batch) (length batch) c_options None in
  let fr := ukv_read w.1 (read_tasks_of batch.*1) (length batch)
              out_lengths out_values c_arena None in
  w.2 = None /\ c_error fr = None /\
  c_found_lengths fr = out_lengths /\ c_found_values fr = out_values /\
  (forall i k v, batch !! i = Some (k, v) ->
     load_val_len (tape fr) 0 i = Z.of_nat (length v)) /\
  drop (4 * length batch) (tape fr) = concat batch.*2.
Proof.
  intros Hh Hn. rewrite ukv_write_dispatch. cbv zeta.
  rewrite decide_False by done.
  set (options := {| sync := negb (Z.land c_options flush =? 0) |}).
  destruct (write_many_healthy db (write_tasks_of batch) (length batch) options None Hh)
    as [Hh' He'].
  unfold ukv_read. apply Nat.eqb_neq in Hn. rewrite Hn.
  set (fr0 := mkFrame [] out_lengths out_values (output_tape (cast_arena c_arena)) None).
  destruct (read_many_spec _ (read_tasks_of batch.*1)
              {| verify_checksums := false; fill_cache := true |} Hh'
              (length batch) fr0 eq_refl) as (E1 & E2 & E3 & E4 & E5).
  split; [exact He'|]. split; [exact E1|]. split; [exact E2|]. split; [exact E3|].
  split.
  - intros i k v Hi.
    rewrite E5 by (eapply lookup_lt_Some; eauto).
    rewrite (stored_after_write db options i k v Hh Hi).
    unfold wrap. apply Z.mod_small.
    pose proof (Forall_lookup_1 _ _ i (k, v) lengths_fit Hi) as Hl.
    cbn [snd] in Hl. lia.
  - rewrite E4.
    apply found_values_all; [now rewrite length_fmap|]. intros j v Hj. cbn [Nat.add].
    rewrite list_lookup_fmap in Hj.
    destruct (batch !! j) as [[k v']|] eqn:Hb; [|done].
    cbn in Hj. injection Hj as ->.
    now apply (stored_after_write db options j k v).
Qed.

End batch_read.

(** X6: one pair, written and read back: the call reports the length of the
    value and designates its bytes. *)
Lemma write_then_read_one (flush : Z) (db : DB) (c_options : Z)
    (out_lengths out_values : out_ptr) (c_arena : option stl_arena_t)
    (k : Z) (v : list byte) :
  trouble db = None -> key_in_range k ->
  Z.of_nat (length v) < 2 ^ ukv_val_len_bits ->
  let w := ukv_write flush db (write_tasks_of [(k, v)]) 1 c_options None in
  let fr := ukv_read w.1 (read_tasks_of [k]) 1 out_lengths out_values c_arena None in
  w.2 = None /\ c_error fr = None /\
  found_length fr 0 = Some (Z.of_nat (length v)) /\
  found_bytes fr 0 (length v) = Some v.
Proof.
  intros Hh Hk Hl. rewrite ukv_write_dispatch. cbv zeta.
  rewrite decide_True by done. rewrite write_one_many_one.
  set (options := {| sync := negb (Z.land c_options flush =? 0) |}).
  destruct (write_many_healthy db (write_tasks_of [(k, v)]) 1 options None Hh)
    as [Hh' He'].
  assert (Hr : Forall key_in_range [(k, v)].*1)
    by (constructor; [exact Hk|constructor]).
  assert (Hd : NoDup [(k, v)].*1) by (apply NoDup_singleton).
  pose proof (stored_after_write [(k, v)] Hr Hd db options 0 k v Hh eq_refl) as Hs.
  cbn [length fmap list_fmap fst] in Hs.
  unfold ukv_read. cbn [Nat.eqb].
  set (fr0 := mkFrame [] out_lengths out_values (output_tape (cast_arena c_arena)) None).
  destruct (read_one_present _ (read_tasks_of [k])
              {| verify_checksums := false; fill_cache := true |} Hh'
              1 fr0 v eq_refl Hs Hl) as (E1 & E2 & E3).
  done.
Qed.

(** C2, on the batch [(1, "a"), (2, "bb")] written to an empty database and
    read back with the keys [1] and [2]: no error is reported and the tape
    holds the lengths [1] and [2] followed by the three bytes, but the two
    output pointers are not assigned, so that the call reports no length
    and designates no bytes. *)
Theorem write_read_batch_outputs_unassigned :
  let batch := [(1, [x61]); (2, [x62; x62])] in
  let w := ukv_write 2 (mkDB ∅ None) (write_tasks_of batch) 2 0 None in
  let fr := ukv_read w.1 (read_tasks_of [1; 2]) 2 Untouched Untouched None None in
  w.2 = None /\ c_error fr = None /\
  tape fr = [x01; x00; x00; x00; x02; x00; x00; x00; x61; x62; x62] /\
  c_found_lengths fr = Untouched /\ c_found_values fr = Untouched /\
  found_length fr 0 = None /\ found_length fr 1 = None /\
  found_bytes fr 0 1 = None /\ found_bytes fr 1 2 = None.
Proof. vm_compute. repeat split. Qed.

End roundtrip_facts.

(** ** Validation *)

Module ranges_facts.
Import ranges_args.

Lemma is_set_false {e : element_t} (it : strided_iterator_gt e) :
  raw it = 0 -> is_set it = false.
Proof. intros H. unfold is_set. now rewrite H. Qed.

Lemma is_set_true {e : element_t} (it : strided_iterator_gt e) :
  raw it <> 0 -> is_set it = true.
Proof. intros H. unfold is_set. apply Z.eqb_neq in H. now rewrite H. Qed.

Lemma is_set_iff {e : element_t} (it : strided_iterator_gt e) :
  is_set it = true <-> raw it <> 0.
Proof.
  unfold is_set. destruct (Z.eqb_spec (raw it) 0); simpl; split; congruence.
Qed.

Lemma enum_is_subset_spec (c allowed : Z) :
  enum_is_subset c allowed = true <->
  forall j, 0 <= j -> Z.testbit c j = true -> Z.testbit allowed j = true.
Proof.
  unfold enum_is_subset. rewrite Z.eqb_eq. split.
  - intros H j Hj Hc.
    assert (Hb : Z.testbit (Z.land c (Z.lnot allowed)) j = false)
      by (rewrite H; apply Z.bits_0).
    rewrite Z.land_spec, Z.lnot_spec, Hc in Hb by lia.
    simpl in Hb. now apply negb_false_iff in Hb.
  - intros H. apply Z.bits_inj'. intros j Hj.
    rewrite Z.bits_0, Z.land_spec, Z.lnot_spec by lia.
    destruct (Z.testbit c j) eqn:Hc; [|done].
    now rewrite (H j Hj Hc).
Qed.

Lemma enum_is_subset_outside (c allowed : Z) :
  has_flag_outside c allowed -> enum_is_subset c allowed = false.
Proof.
  intros (j & Hj & Hc & Ha).
  destruct (enum_is_subset c allowed) eqn:E; [|done].
  rewrite enum_is_subset_spec in E. rewrite (E j Hj Hc) in Ha. done.
Qed.

Section validation.

Variables dont_watch dont_discard write_flush read_shared scan_bulk : Z.

Local Abbreviation validate_write := (validate_write dont_watch dont_discard write_flush).
Local Abbreviation validate_read := (validate_read dont_watch dont_discard read_shared).
Local Abbreviation validate_scan :=
  (validate_scan dont_watch dont_discard read_shared scan_bulk).

(** C4: a write, a read or a scan with an option outside the set of its
    operation, a write or a read without keys and a scan without limits
    are all rejected with [args_wrong_k].  The validators return the
    error and nothing else: no other state is theirs to change. *)
Theorem validate_rejects (c_txn : Z) (places : places_arg_t)
    (contents : contents_arg_t) (args : scans_arg_t) (c_options : Z)
    (c_error : ustore_error_t) :
  (has_flag_outside c_options
     (write_allowed_options dont_watch dont_discard write_flush) ->
   validate_write c_txn places contents c_options c_error =
     Some (args_wrong_k, "Invalid options!"%string)) /\
  (has_flag_outside c_options
     (read_allowed_options dont_watch dont_discard read_shared) ->
   validate_read c_txn places c_options c_error =
     Some (args_wrong_k, "Invalid options!"%string)) /\
  (has_flag_outside c_options
     (scan_allowed_options dont_watch dont_discard read_shared scan_bulk) ->
   validate_scan c_txn args c_options c_error =
     Some (args_wrong_k, "Invalid options!"%string)) /\
  (raw (keys_begin places) = 0 ->
   is_args_wrong (validate_write c_txn places contents c_options c_error) /\
   is_args_wrong (validate_read c_txn places c_options c_error)) /\
  (raw (limits args) = 0 ->
   is_args_wrong (validate_scan c_txn args c_options c_error)).
Proof.
  unfold ranges_args.validate_write, ranges_args.validate_read,
    ranges_args.validate_scan, return_error_if_m.
  split; [|split; [|split; [|split]]].
  - intros H. now rewrite (enum_is_subset_outside _ _ H).
  - intros H. now rewrite (enum_is_subset_outside _ _ H).
  - intros H. now rewrite (enum_is_subset_outside _ _ H).
  - intros H. rewrite (is_set_false _ H). unfold is_args_wrong.
    split; destruct (enum_is_subset _ _); eauto.
  - intros H. rewrite (is_set_false _ H). unfold is_args_wrong.
    destruct (enum_is_subset _ _); eauto.
Qed.

(** C10: a write without contents is rejected with [args_wrong_k] as soon
    as it has lengths or offsets, and goes through only with neither of
    them (and with valid options and with keys). *)
Theorem validate_write_remove_all (c_txn : Z) (places : places_arg_t)
    (contents : contents_arg_t) (c_options : Z) (c_error : ustore_error_t) :
  raw (contents_begin contents) = 0 ->
  (raw (lengths_begin contents) <> 0 \/ raw (offsets_begin contents) <> 0 ->
   is_args_wrong (validate_write c_txn places contents c_options c_error)) /\
  (validate_write c_txn places contents c_options None = None <->
   enum_is_subset c_options
     (write_allowed_options dont_watch dont_discard write_flush) = true /\
   raw (keys_begin places) <> 0 /\
   raw (lengths_begin contents) = 0 /\
   raw (offsets_begin contents) = 0).
Proof.
  intros Hc.
  unfold ranges_args.validate_write, return_error_if_m.
  rewrite (is_set_false _ Hc). cbn [negb].
  split.
  - intros Hlo. unfold is_args_wrong.
    destruct (enum_is_subset _ _); [|eauto].
    destruct (is_set (keys_begin places)); [|eauto].
    destruct Hlo as [Hl|Ho].
    + rewrite (is_set_true _ Hl). simpl. eauto.
    + rewrite (is_set_true _ Ho). rewrite andb_false_r. eauto.
  - destruct (enum_is_subset _ _); [|split; [done|intros (? & _); done]].
    destruct (is_set (keys_begin places)) eqn:Hk.
    + apply is_set_iff in Hk.
      unfold is_set.
      destruct (Z.eqb_spec (raw (lengths_begin contents)) 0) as [El|El];
        destruct (Z.eqb_spec (raw (offsets_begin contents)) 0) as [Eo|Eo];
        simpl; split; try done; try tauto.
    + split; [done|]. intros (_ & Hk' & _).
      apply is_set_iff in Hk'. congruence.
Qed.

End validation.

Lemma validate_rejects_witness :
  validate_write 4 16 2 0 example_places example_contents 1 None =
    Some (args_wrong_k, "Invalid options!"%string) /\
  is_args_wrong (validate_read 4 16 32 0 example_places_without_keys 4 None) /\
  is_args_wrong (validate_scan 4 16 32 64 0 example_scans_without_limits 4 None).
Proof.
  destruct (validate_rejects 4 16 2 32 64 0 example_places example_contents
              example_scans_without_limits 1 None) as (Hw & _).
  destruct (validate_rejects 4 16 2 32 64 0 example_places_without_keys
              example_contents example_scans_without_limits 4 None)
    as (_ & _ & _ & Hk & Hl).
  split; [|split].
  - apply Hw. exists 0. split; [lia|split; reflexivity].
  - apply Hk. reflexivity.
  - apply Hl. reflexivity.
Defined.

Lemma validate_write_remove_all_witness :
  raw (contents_begin example_lengths_without_contents) = 0 /\
  is_args_wrong
    (validate_write 4 16 2 0 example_places example_lengths_without_contents 0 None).
Proof.
  split; [reflexivity|].
  apply (validate_write_remove_all 4 16 2 0 example_places
           example_lengths_without_contents 0 None eq_refl).
  left. simpl. lia.
Defined.

End ranges_facts.

(** ** The bundles *)

Module bundle_facts.
Import ranges_args ranges_facts.

Lemma load_length_range (m : memory) (a : Z) :
  0 <= load length_e m a < 2 ^ 32.
Proof.
  unfold load. pose proof (le_decode_range (load_bytes m a 4)) as H.
  unfold load_bytes in H. rewrite length_fmap, length_seq in H. exact H.
Qed.

Lemma byte_eqb_neq (x y : byte) : x <> y -> Byte.eqb x y = false.
Proof.
  intros H. destruct (Byte.eqb x y) eqn:E; [|done].
  apply Byte.byte_dec_bl in E. done.
Qed.

(** The scan for the separator ends on the first one, given fuel for the
    bytes before it and for the separator itself. *)
Lemma find_separator_first (m : memory) (item : Z) (sep : byte) (k : Z) (fuel : nat) :
  forall len : Z,
  0 <= len <= k -> k < 2 ^ 32 ->
  (forall p, len <= p < k -> m (item + p) <> sep) ->
  m (item + k) = sep ->
  (Z.to_nat (k - len) < fuel)%nat ->
  find_separator fuel m item len sep = Some k.
Proof.
  induction fuel as [|fuel IH]; intros len Hlen Hk Hbefore Hat Hfuel; [lia|].
  cbn [find_separator].
  destruct (Z.eq_dec len k) as [->|Hne].
  - rewrite Hat, (Byte.byte_dec_lb eq_refl). f_equal.
    unfold wrap. change (2 ^ 32) with 4294967296 in *.
    Z.to_euclidean_division_equations; lia.
  - rewrite byte_eqb_neq by (apply Hbefore; lia).
    assert (E : wrap 32 (len + 1) = len + 1).
    { unfold wrap. apply Z.mod_small. lia. }
    rewrite E. apply IH; [lia|done| |done|lia].
    intros p Hp. apply Hbefore. lia.
Qed.

(** C5: for a payload that is there (the array of pointers is given, the
    pointer at [i] is not null, the presence bit, if there is a bitmap, is
    set) the view starts at [contents[i] + offsets[i]], offset [0] without
    offsets, and its length is [lengths[i]] when lengths are given,
    otherwise [offsets[i+1] - offsets[i]] when offsets are given,
    otherwise the number of bytes before the first separator. *)
Theorem contents_at_probes (fuel : nat) (m : memory) (c : contents_arg_t) (i : nat) :
  is_set (contents_begin c) = true ->
  at_ m (contents_begin c) i <> 0 ->
  (bits_is_set (presences_begin c) = true ->
   bits_at m (presences_begin c) i = true) ->
  let begin := at_ m (contents_begin c) i in
  let off := if is_set (offsets_begin c) then at_ m (offsets_begin c) i else 0 in
  (is_set (lengths_begin c) = true ->
   contents_at fuel m c i =
     Some {| view_begin := begin + off;
             view_length := at_ m (lengths_begin c) i |}) /\
  (is_set (lengths_begin c) = false -> is_set (offsets_begin c) = true ->
   contents_at fuel m c i =
     Some {| view_begin := begin + at_ m (offsets_begin c) i;
             view_length :=
               wrap 32 (at_ m (offsets_begin c) (i + 1) - at_ m (offsets_begin c) i) |}
   /\ (at_ m (offsets_begin c) i <= at_ m (offsets_begin c) (i + 1) ->
       wrap 32 (at_ m (offsets_begin c) (i + 1) - at_ m (offsets_begin c) i) =
         at_ m (offsets_begin c) (i + 1) - at_ m (offsets_begin c) i)) /\
  (is_set (lengths_begin c) = false -> is_set (offsets_begin c) = false ->
   forall k : Z,
     0 <= k < 2 ^ 32 ->
     (forall p, 0 <= p < k -> m (begin + p) <> separator c) ->
     m (begin + k) = separator c ->
     (Z.to_nat k < fuel)%nat ->
     contents_at fuel m c i = Some {| view_begin := begin + 0; view_length := k |}).
Proof.
  intros Hc Hp Hbit begin off.
  assert (Hguard : negb (is_set (contents_begin c))
            || (at_ m (contents_begin c) i =? 0)
            || (bits_is_set (presences_begin c)
                && negb (bits_at m (presences_begin c) i)) = false).
  { rewrite Hc. apply Z.eqb_neq in Hp. rewrite Hp. simpl.
    destruct (bits_is_set (presences_begin c)); [|done].
    now rewrite Hbit. }
  unfold contents_at. rewrite Hguard. fold begin. fold off.
  split; [|split].
  - intros Hl. now rewrite Hl.
  - intros Hl Ho. rewrite Hl. subst off. rewrite Ho. split; [done|].
    intros Hle. unfold wrap. apply Z.mod_small.
    pose proof (load_length_range m
      (raw (offsets_begin c) + Z.of_nat i * stride (offsets_begin c))).
    pose proof (load_length_range m
      (raw (offsets_begin c) + Z.of_nat (i + 1) * stride (offsets_begin c))).
    unfold at_ in *. lia.
  - intros Hl Ho k Hk Hbefore Hat Hfuel. rewrite Hl. subst off. rewrite Ho.
    rewrite (find_separator_first m (begin + 0) (separator c) k fuel 0);
      try lia; try done.
    + intros p Hp'. replace (begin + 0 + p) with (begin + p) by lia.
      apply Hbefore. lia.
    + now replace (begin + 0 + k) with (begin + k) by lia.
Qed.

(** C6: without collections the place and the vertex query are in the main
    collection, without roles the query is for any role, and a range of
    edges built without identifiers gives every edge the identifier stored
    in [ustore_default_edge_id_k]. *)
Theorem null_argument_defaults (main any default_id default_id_addr : Z)
    (m : memory) (p : places_arg_t) (f : find_edges_t)
    (sources targets : strided_range_gt key_e) (i : nat) :
  (raw (collections_begin p) = 0 ->
   collection (places_at main m p i) = main) /\
  (raw (find_collections_begin f) = 0 ->
   find_collection (find_edges_at main any m f i) = main) /\
  (raw (roles_begin f) = 0 ->
   role (find_edges_at main any m f i) = any) /\
  (load key_e m default_id_addr = default_id ->
   id (edges_at m (edges_range_of default_id_addr sources targets None) i) = default_id).
Proof.
  split; [|split; [|split]].
  - intros H. unfold places_at. cbn [collection]. now rewrite (is_set_false _ H).
  - intros H. unfold find_edges_at. cbn [find_collection].
    now rewrite (is_set_false _ H).
  - intros H. unfold find_edges_at. cbn [role]. now rewrite (is_set_false _ H).
  - intros H. unfold edges_at, edges_range_of, range_at, at_, of_pointer.
    cbn [id edge_ids default begin_ raw stride].
    now rewrite Z.mul_0_r, Z.add_0_r.
Qed.

Lemma contents_at_probes_witness :
  contents_at 10 example_memory example_contents 0 =
    Some {| view_begin := 200; view_length := 3 |}.
Proof.
  refine (proj2 (proj2 (contents_at_probes 10 example_memory example_contents 0
                          eq_refl _ _)) eq_refl eq_refl 3 _ _ _ _).
  - vm_compute. discriminate.
  - intros H. vm_compute in H. discriminate.
  - lia.
  - intros p Hp.
    assert (Hcases : p = 0 \/ p = 1 \/ p = 2) by lia.
    destruct Hcases as [->|[->| ->]]; vm_compute; discriminate.
  - reflexivity.
  - vm_compute. lia.
Defined.

Lemma null_argument_defaults_witness :
  collection (places_at 0 example_memory example_places 1) = 0 /\
  find_collection (find_edges_at 0 3 example_memory example_find_edges 1) = 0 /\
  role (find_edges_at 0 3 example_memory example_find_edges 1) = 3 /\
  id (edges_at example_memory
        (edges_range_of 400 (mk_range (mk_strided 64 24) 2)
           (mk_range (mk_strided 72 24) 2) None) 1) = 2 ^ 63 - 1.
Proof.
  destruct (null_argument_defaults 0 3 (2 ^ 63 - 1) 400 example_memory
              example_places example_find_edges
              (mk_range (mk_strided 64 24) 2) (mk_range (mk_strided 72 24) 2) 1)
    as (H1 & H2 & H3 & H4).
  split; [apply H1; reflexivity|].
  split; [apply H2; reflexivity|].
  split; [apply H3; reflexivity|].
  apply H4. vm_compute. reflexivity.
Defined.

End bundle_facts.

(** ** The neighbours of a vertex *)

Module networkx_facts.
Import ranges_args networkx.

Lemma swap_loop_spec (n : Z) (todo : nat) :
  forall (i : nat) (edges : list edge_t),
  swap_loop n i todo edges =
    take i edges ++ (swapped n <$> take todo (drop i edges)) ++ drop (i + todo) edges.
Proof.
  induction todo as [|todo IH]; intros i edges.
  - cbn [swap_loop]. rewrite take_0, Nat.add_0_r. cbn [fmap list_fmap app].
    now rewrite take_drop.
  - cbn [swap_loop]. destruct (edges !! i) as [e|] eqn:He.
    + assert (Hi : (i < length edges)%nat) by (eapply lookup_lt_Some; eauto).
      assert (E : (if source_id e =? n
                   then <[i:=mk_edge (target_id e) (source_id e) (id e)]> edges
                   else edges) = <[i:=swapped n e]> edges).
      { unfold swapped. destruct (source_id e =? n); [done|].
        symmetry. now apply list_insert_id. }
      rewrite E, IH.
      rewrite (drop_S edges e i He). cbn [take fmap list_fmap].
      rewrite (take_S_r (<[i:=swapped n e]> edges) i (swapped n e))
        by (now apply list_lookup_insert_eq).
      rewrite take_insert_ge by lia.
      rewrite !drop_insert_lt by lia.
      rewrite <- app_assoc. cbn [app].
      now replace (S i + todo)%nat with (i + S todo)%nat by lia.
    + apply lookup_ge_None in He. rewrite IH.
      rewrite !(drop_ge edges) by lia. rewrite !(take_ge edges) by lia.
      now rewrite take_nil.
Qed.

(** What [neighbors] returns, entry by entry. *)
Lemma neighbors_entries (n : Z) (edges : list edge_t) :
  neighbors n edges =
    (fun e => if source_id e =? n then source_id e else target_id e) <$> edges.
Proof.
  unfold neighbors. rewrite swap_loop_spec.
  rewrite take_0, drop_0, firstn_all, Nat.add_0_l, drop_all, app_nil_r. simpl.
  rewrite <- list_fmap_compose. apply list_fmap_ext. intros _ e _.
  simpl. unfold swapped. now destruct (source_id e =? n).
Qed.

Lemma neighbors_length (n : Z) (edges : list edge_t) :
  length (neighbors n edges) = length edges.
Proof. rewrite neighbors_entries. apply length_fmap. Qed.

(** On edges incident to [n], every entry returned is [n] itself. *)
Lemma neighbors_incident (n : Z) (edges : list edge_t) :
  Forall (incident n) edges ->
  neighbors n edges = replicate (length edges) n.
Proof.
  intros H. rewrite neighbors_entries.
  induction H as [|e edges He _ IH]; [done|].
  cbn [fmap list_fmap length replicate]. f_equal; [|exact IH].
  destruct (Z.eqb_spec (source_id e) n) as [E|E]; [done|].
  destruct He; congruence.
Qed.

(** C3, on the edges [1 -> 2] and [3 -> 1] of vertex [1]: there is one
    entry per edge, yet both entries are the vertex [1] itself where the
    other ends are [2] and [3]. *)
Theorem neighbors_returns_vertex_itself :
  let edges := [mk_edge 1 2 100; mk_edge 3 1 101] in
  Forall (incident 1) edges /\
  length (neighbors 1 edges) = length edges /\
  neighbors 1 edges = [1; 1] /\
  other_end 1 <$> edges = [2; 3].
Proof.
  cbv zeta. split; [|split; [|split]]; [|reflexivity..].
  constructor; [left; reflexivity|].
  constructor; [right; reflexivity|constructor].
Qed.

End networkx_facts.

(** ** More on the comparator *)

Module comparator_more_facts.
Import key_comparator_t key_comparator_facts.

(** X1: [Compare] is a total preorder on slices of any content: a slice
    equals itself, swapping the arguments negates the result, the result is
    one of [-1], [0] and [1], and "not greater" is transitive. *)
Theorem Compare_total_order (a b c : Slice) :
  Compare a a = 0 /\
  Compare b a = - Compare a b /\
  (Compare a b = -1 \/ Compare a b = 0 \/ Compare a b = 1) /\
  (Compare a b <= 0 -> Compare b c <= 0 -> Compare a c <= 0).
Proof.
  unfold Compare.
  destruct (Z.eqb_spec (load_key a) (load_key a)) as [_|E]; [|done].
  destruct (Z.eqb_spec (load_key a) (load_key b)) as [Eab|Eab];
    destruct (Z.eqb_spec (load_key b) (load_key a)) as [Eba|Eba];
    destruct (Z.eqb_spec (load_key b) (load_key c)) as [Ebc|Ebc];
    destruct (Z.eqb_spec (load_key a) (load_key c)) as [Eac|Eac];
    destruct (Z.ltb_spec (load_key a) (load_key b));
    destruct (Z.ltb_spec (load_key b) (load_key a));
    destruct (Z.ltb_spec (load_key b) (load_key c));
    destruct (Z.ltb_spec (load_key a) (load_key c));
    repeat split; try lia; auto.
Qed.

Lemma Compare_total_order_witness :
  Compare (to_slice 1) (to_slice 3) <= 0.
Proof.
  refine (proj2 (proj2 (proj2
            (Compare_total_order (to_slice 1) (to_slice 2) (to_slice 3)))) _ _);
    vm_compute; discriminate.
Defined.

(** X2: the slice of a key is eight bytes from which the key is read back,
    and two keys with the same slice are the same key. *)
Theorem to_slice_round_trip (k k' : Z) :
  key_in_range k -> key_in_range k' ->
  length (to_slice k) = 8%nat /\
  load_key (to_slice k) = k /\
  (to_slice k = to_slice k' -> k = k').
Proof.
  intros Hk Hk'. split; [apply length_to_slice|].
  split; [now apply load_key_to_slice|now apply to_slice_inj].
Qed.

Lemma to_slice_round_trip_witness :
  load_key (to_slice (-42)) = -42.
Proof.
  refine (proj1 (proj2 (to_slice_round_trip (-42) 7 _ _)));
    unfold key_in_range, ukv_key_bits; simpl; lia.
Defined.

Lemma load_key_app (k : Z) (rest : Slice) :
  key_in_range k -> load_key (to_slice k ++ rest) = k.
Proof.
  intros Hk. unfold load_key.
  rewrite take_app_length' by (now rewrite length_to_slice).
  rewrite <- (load_key_to_slice k Hk) at 2. unfold load_key.
  now rewrite firstn_all2 by (rewrite length_to_slice; unfold sizeof_ukv_key_t; lia).
Qed.

(** X3: below the largest key, [FindShortSuccessor] turns a slice that
    starts with key [k] into one of the same length that starts with
    [k + 1], compares greater, and keeps the bytes after the key. *)
Theorem FindShortSuccessor_greater (k : Z) (rest : Slice) :
  key_in_range k -> k < 2 ^ 63 - 1 ->
  let key := to_slice k ++ rest in
  load_key (FindShortSuccessor key) = k + 1 /\
  Compare key (FindShortSuccessor key) < 0 /\
  length (FindShortSuccessor key) = length key /\
  drop 8 (FindShortSuccessor key) = rest.
Proof.
  intros Hk Hmax key.
  assert (Hk1 : key_in_range (k + 1)).
  { unfold key_in_range, ukv_key_bits in *. simpl Z.sub in *. lia. }
  assert (Hs : FindShortSuccessor key = to_slice (k + 1) ++ rest).
  { unfold FindShortSuccessor, key. rewrite load_key_app by done.
    now rewrite drop_app_length' by (now rewrite length_to_slice). }
  rewrite Hs. split; [now apply load_key_app|]. split; [|split].
  - pose proof (Compare_spec key (to_slice (k + 1) ++ rest)) as (_ & Hlt & _).
    apply Hlt. unfold key. rewrite !load_key_app by done. lia.
  - unfold key. now rewrite !length_app, !length_to_slice.
  - now rewrite drop_app_length' by (now rewrite length_to_slice).
Qed.

Lemma FindShortSuccessor_greater_witness :
  Compare (to_slice 255 ++ [x07]) (FindShortSuccessor (to_slice 255 ++ [x07])) < 0.
Proof.
  refine (proj1 (proj2 (FindShortSuccessor_greater 255 [x07] _ _))).
  - unfold key_in_range, ukv_key_bits; simpl; lia.
  - lia.
Defined.

End comparator_more_facts.

(** ** More on writing *)

Module engine_more_facts.
Import key_comparator_t key_comparator_facts leveldb ukv_leveldb.
Import tape_facts write_facts read_facts roundtrip_facts.

Lemma export_error_failed (f : Failure) (c_error : ukv_error_t) :
  export_error (Failed f) c_error = (true, Some (failure_message f)).
Proof. now destruct f. Qed.

Lemma ukv_write_as_write_many (flush : Z) (db : DB) (tasks : write_tasks_soa_t)
    (n : nat) (c_options : Z) (c_error : ukv_error_t) :
  ukv_write flush db tasks n c_options c_error =
    write_many db tasks n {| sync := negb (Z.land c_options flush =? 0) |} c_error.
Proof.
  rewrite ukv_write_dispatch. cbv zeta.
  destruct (decide (n = 1%nat)) as [->|_]; [apply write_one_many_one|done].
Qed.

Lemma op_key_of_task (task : write_task_t) :
  key_in_range (key task) -> op_key (op_of_task task) = key task.
Proof.
  intros H. unfold op_of_task.
  destruct (is_deleted task); simpl; now apply load_key_to_slice.
Qed.

(** What an operation leaves under its key. *)
Lemma foldl_apply_last (pre post : WriteBatch) (task : write_task_t)
    (t : gmap Z (list byte)) :
  Forall (fun op => op_key op <> op_key (op_of_task task)) post ->
  foldl apply_op t (pre ++ op_of_task task :: post) !! op_key (op_of_task task)
  = payload task.
Proof.
  intros H. rewrite foldl_app. cbn [foldl].
  rewrite foldl_apply_other by done.
  unfold op_of_task, is_deleted, view.
  destruct (payload task) as [v|]; simpl.
  - apply lookup_insert_eq.
  - apply lookup_delete_eq.
Qed.

Section writes.

Variable flush : Z.
Variable db : DB.
Variable tasks : write_tasks_soa_t.
Variable n : nat.
Variable c_options : Z.
Hypothesis healthy : trouble db = None.
Hypothesis keys_in_range : forall j, (j < n)%nat -> key_in_range (key (tasks j)).

Lemma written_table (c_error : ukv_error_t) :
  table (ukv_write flush db tasks n c_options c_error).1 =
    foldl apply_op (table db) (op_of_task ∘ tasks <$> seq 0 n).
Proof.
  rewrite ukv_write_as_write_many. unfold write_many, Write. rewrite healthy.
  cbn [fst table]. now rewrite fill_batch_spec, app_nil_l.
Qed.

(** What the last task on a key leaves under it. *)
Lemma written_last_task (c_error : ukv_error_t) (i : nat) :
  (i < n)%nat ->
  (forall j, (i < j < n)%nat -> key (tasks j) <> key (tasks i)) ->
  table (ukv_write flush db tasks n c_options c_error).1 !! key (tasks i)
  = payload (tasks i).
Proof.
  intros Hi Hlater. rewrite written_table.
  replace n with (i + S (n - S i))%nat at 1 by lia.
  rewrite seq_app, fmap_app. cbn [seq fmap list_fmap].
  change ((op_of_task ∘ tasks) i) with (op_of_task (tasks i)).
  rewrite <- (op_key_of_task (tasks i)) at 1 by (apply keys_in_range; lia).
  apply foldl_apply_last.
  apply Forall_fmap, Forall_forall. intros j Hj.
  apply elem_of_seq in Hj. cbn [Nat.add] in Hj. simpl.
  rewrite !op_key_of_task by (apply keys_in_range; lia).
  apply Hlater. lia.
Qed.

(** X10: in a batch the last task on a key decides what the key holds
    afterwards: its payload, or nothing when that task is a deletion. *)
Theorem ukv_write_last_wins (c_error : ukv_error_t) (i : nat) :
  (i < n)%nat ->
  (forall j, (i < j < n)%nat -> key (tasks j) <> key (tasks i)) ->
  table (ukv_write flush db tasks n c_options c_error).1 !! key (tasks i)
  = payload (tasks i).
Proof. apply written_last_task. Qed.

(** X9: a write leaves every key that is not in the batch as it was. *)
Theorem ukv_write_other_keys (c_error : ukv_error_t) (k : Z) :
  (forall j, (j < n)%nat -> key (tasks j) <> k) ->
  table (ukv_write flush db tasks n c_options c_error).1 !! k = table db !! k.
Proof.
  intros Hk. rewrite written_table. apply foldl_apply_other.
  apply Forall_fmap, Forall_forall. intros j Hj.
  apply elem_of_seq in Hj. simpl.
  rewrite op_key_of_task by (apply keys_in_range; lia).
  apply Hk. lia.
Qed.

End writes.

(** X5: a write that succeeds leaves the error of the caller as it was, a
    stale error included; a write that fails leaves the database as it was
    and stores the message of the failure. *)
Theorem ukv_write_error (flush : Z) (db : DB) (tasks : write_tasks_soa_t)
    (n : nat) (c_options : Z) (c_error : ukv_error_t) :
  (trouble db = None ->
   (ukv_write flush db tasks n c_options c_error).2 = c_error) /\
  (forall f, trouble db = Some f ->
   ukv_write flush db tasks n c_options c_error = (db, Some (failure_message f))).
Proof.
  rewrite ukv_write_as_write_many. unfold write_many, Write. split.
  - intros ->. reflexivity.
  - intros f ->. now rewrite export_error_failed.
Qed.

End engine_more_facts.

(** ** More on reading *)

Module read_more_facts.
Import key_comparator_t key_comparator_facts leveldb ukv_leveldb.
Import tape_facts write_facts read_facts roundtrip_facts engine_more_facts.

Lemma Get_trouble (db : DB) (options : ReadOptions) (key : Slice)
    (v0 : list byte) (f : Failure) :
  trouble db = Some f -> Get options key v0 db = (Failed f, v0).
Proof. intros H. unfold Get. now rewrite H. Qed.

(** X4: a read of one key or more from a database that fails stores the
    message of the failure and assigns neither output pointer. *)
Theorem ukv_read_error (db : DB) (tasks : read_tasks_soa_t) (n : nat)
    (out_lengths out_values : out_ptr) (c_arena : option stl_arena_t) (f : Failure) :
  trouble db = Some f -> n <> 0%nat ->
  let fr := ukv_read db tasks n out_lengths out_values c_arena None in
  c_error fr = Some (failure_message f) /\
  c_found_lengths fr = out_lengths /\ c_found_values fr = out_values.
Proof.
  intros Hf Hn. unfold ukv_read.
  destruct (Nat.eqb_spec n 1) as [->|Hn1].
  - unfold read_one. rewrite (Get_trouble _ _ _ _ f Hf).
    cbn [IsNotFound negb c_error]. now rewrite export_error_failed.
  - unfold read_many. cbn [c_error tape value c_found_lengths c_found_values].
    destruct n as [|n]; [done|]. cbn [read_many_loop].
    cbn [value]. rewrite (Get_trouble _ _ _ _ f Hf).
    cbn [IsNotFound c_error]. now rewrite export_error_failed.
Qed.

Lemma ukv_read_error_witness :
  c_error (ukv_read (mkDB ∅ (Some IOError)) (read_tasks_of [1; 2]) 2
             Untouched Untouched None None)
  = Some "Failure: IO  Error"%string.
Proof.
  refine (proj1 (ukv_read_error (mkDB ∅ (Some IOError)) (read_tasks_of [1; 2]) 2
                   Untouched Untouched None IOError eq_refl _)).
  lia.
Defined.

(** X11: with no key at all a write to a healthy database and a read from
    any database change nothing but the tape, which the read leaves empty:
    the database, the error and the output pointers stay as they were. *)
Theorem empty_batch (flush : Z) (db : DB) (wtasks : write_tasks_soa_t)
    (rtasks : read_tasks_soa_t) (c_options : Z)
    (out_lengths out_values : out_ptr) (c_arena : option stl_arena_t)
    (e : ukv_error_t) :
  (trouble db = None ->
   ukv_write flush db wtasks 0 c_options e = (db, e)) /\
  (let fr := ukv_read db rtasks 0 out_lengths out_values c_arena e in
   tape fr = [] /\ c_error fr = e /\
   c_found_lengths fr = out_lengths /\ c_found_values fr = out_values).
Proof.
  split.
  - intros Hh. unfold ukv_write, write_many, Write. cbn [Nat.eqb].
    rewrite Hh. cbn [fill_batch foldl export_error ok snd].
    destruct db as [t tr]. cbn in Hh. now subst tr.
  - unfold ukv_read, read_many, prepare_memory. cbn [Nat.eqb c_error tape].
    rewrite Nat.mul_0_r, resize_0.
    destruct e; now repeat split.
Qed.

Lemma empty_batch_witness :
  ukv_write 2 (mkDB {[ 7 := [x61] ]} None) (write_tasks_of []) 0 0 None
  = (mkDB {[ 7 := [x61] ]} None, None).
Proof.
  exact (proj1 (empty_batch 2 (mkDB {[ 7 := [x61] ]} None) (write_tasks_of [])
                  (read_tasks_of []) 0 Untouched Untouched None None) eq_refl).
Defined.







End read_more_facts.

(** ** Sequences of calls *)

Module sequence_facts.
Import key_comparator_t key_comparator_facts leveldb ukv_leveldb.
Import tape_facts write_facts read_facts roundtrip_facts engine_more_facts.
Import read_more_facts.

Lemma key_in_range_small (k : Z) : -1000 <= k <= 1000 -> key_in_range k.
Proof. intros H. unfold key_in_range, ukv_key_bits. simpl. lia. Qed.

(** X8: a key that is written and then deleted reads as missing: the read
    reports the sentinel and no byte of value, without error; the deletion
    succeeds whether or not the key is there. *)
Theorem write_delete_read (flush : Z) (db : DB) (c_options : Z)
    (out_lengths out_values : out_ptr) (c_arena : option stl_arena_t)
    (k : Z) (v : list byte) :
  trouble db = None -> key_in_range k ->
  let w1 := ukv_write flush db (write_tasks_of [(k, v)]) 1 c_options None in
  let w2 := ukv_write flush w1.1 (delete_tasks_of [k]) 1 c_options None in
  let fr := ukv_read w2.1 (read_tasks_of [k]) 1 out_lengths out_values c_arena None in
  w1.2 = None /\ w2.2 = None /\ c_error fr = None /\
  found_length fr 0 = Some ukv_val_len_missing_k /\
  length (tape fr) = 8%nat.
Proof.
  intros Hh Hk w1 w2 fr.
  assert (H1 : trouble w1.1 = None /\ w1.2 = None).
  { unfold w1. rewrite ukv_write_as_write_many. now apply write_many_healthy. }
  destruct H1 as [Hh1 He1].
  assert (H2 : trouble w2.1 = None /\ w2.2 = None).
  { unfold w2. rewrite ukv_write_as_write_many. now apply write_many_healthy. }
  destruct H2 as [Hh2 He2].
  assert (Hs : stored w2.1 (read_tasks_of [k]) 0 = None).
  { unfold stored, read_tasks_of. cbn [rkey lookup list_lookup default from_option].
    unfold id. rewrite (load_key_to_slice k Hk).
    apply (written_last_task flush w1.1 (delete_tasks_of [k]) 1 c_options Hh1
             (fun j _ => match j with O => Hk | S _ => key_in_range_small 0 ltac:(lia) end)
             None 0 ltac:(lia)).
    intros j Hj. lia. }
  split; [exact He1|]. split; [exact He2|].
  unfold fr, ukv_read. cbn [Nat.eqb].
  set (options := {| verify_checksums := false; fill_cache := true |}).
  set (fr0 := mkFrame [] out_lengths out_values (output_tape (cast_arena c_arena)) None).
  destruct (read_one_absent w2.1 (read_tasks_of [k]) options Hh2 1 fr0
              eq_refl eq_refl Hs) as (E1 & E2 & E3).
  now repeat split.
Qed.

Lemma write_delete_read_witness :
  found_length
    (ukv_read
       (ukv_write 2
          (ukv_write 2 (mkDB ∅ None) (write_tasks_of [(42, [x68; x65; x79])]) 1 0 None).1
          (delete_tasks_of [42]) 1 0 None).1
       (read_tasks_of [42]) 1 Untouched Untouched None None) 0
  = Some ukv_val_len_missing_k.
Proof.
  refine (proj1 (proj2 (proj2 (proj2
    (write_delete_read 2 (mkDB ∅ None) 0 Untouched Untouched None 42
       [x68; x65; x79] eq_refl _))))).
  apply key_in_range_small. lia.
Defined.

Lemma ukv_write_last_wins_witness :
  table (ukv_write 2 (mkDB ∅ None)
           (write_tasks_of [(1, [x61]); (2, [x63]); (1, [x62])]) 3 0 None).1 !! 1
  = Some [x62].
Proof.
  refine (ukv_write_last_wins 2 (mkDB ∅ None)
            (write_tasks_of [(1, [x61]); (2, [x63]); (1, [x62])]) 3 0 eq_refl _
            None 2 _ _).
  - intros j Hj. destruct j as [|[|[|j]]]; apply key_in_range_small; simpl; lia.
  - lia.
  - intros j Hj. lia.
Defined.

Lemma ukv_write_other_keys_witness :
  table (ukv_write 2 (mkDB {[ 5 := [x61] ]} None)
           (write_tasks_of [(1, [x61]); (2, [x63])]) 2 0 None).1 !! 5
  = Some [x61].
Proof.
  refine (ukv_write_other_keys 2 (mkDB {[ 5 := [x61] ]} None)
            (write_tasks_of [(1, [x61]); (2, [x63])]) 2 0 eq_refl _ None 5 _).
  - intros j Hj. destruct j as [|[|j]]; apply key_in_range_small; simpl; lia.
  - intros j Hj. destruct j as [|[|j]]; simpl; lia.
Defined.

Lemma ukv_write_error_witness :
  ukv_write 2 (mkDB {[ 5 := [x61] ]} (Some Corruption))
    (write_tasks_of [(1, [x61])]) 1 0 None
  = (mkDB {[ 5 := [x61] ]} (Some Corruption), Some "Failure: DB Corrpution"%string).
Proof.
  exact (proj2 (ukv_write_error 2 (mkDB {[ 5 := [x61] ]} (Some Corruption))
                  (write_tasks_of [(1, [x61])]) 1 0 None) Corruption eq_refl).
Defined.

Lemma write_then_read_one_witness :
  found_bytes
    (ukv_read
       (ukv_write 2 (mkDB ∅ None) (write_tasks_of [(42, [x68; x65; x79])]) 1 0 None).1
       (read_tasks_of [42]) 1 Untouched Untouched None None) 0 3
  = Some [x68; x65; x79].
Proof.
  refine (proj2 (proj2 (proj2
    (write_then_read_one 2 (mkDB ∅ None) 0 Untouched Untouched None 42
       [x68; x65; x79] eq_refl _ _)))).
  - apply key_in_range_small. lia.
  - unfold ukv_val_len_bits. simpl. lia.
Defined.

Lemma write_then_read_many_witness :
  drop 8
    (tape
       (ukv_read
          (ukv_write 2 (mkDB ∅ None)
             (write_tasks_of [(1, [x61]); (2, [x62; x62])]) 2 0 None).1
          (read_tasks_of [1; 2]) 2 Untouched Untouched None None))
  = [x61; x62; x62].
Proof.
  refine (proj2 (proj2 (proj2 (proj2 (proj2
    (write_then_read_many [(1, [x61]); (2, [x62; x62])] _ _ _ 2 (mkDB ∅ None) 0
       Untouched Untouched None eq_refl _)))))).
  - constructor; [apply key_in_range_small; simpl; lia|].
    constructor; [apply key_in_range_small; simpl; lia|constructor].
  - apply NoDup_cons. split; [|apply NoDup_singleton].
    apply not_elem_of_cons. split; [simpl; lia|apply not_elem_of_nil].
  - constructor; [unfold ukv_val_len_bits; simpl; lia|].
    constructor; [unfold ukv_val_len_bits; simpl; lia|constructor].
  - simpl. lia.
Defined.

End sequence_facts.

(** ** More on validation *)

Module validation_more_facts.
Import ranges_args ranges_facts.

Lemma enum_is_subset_land (x allowed : Z) :
  enum_is_subset (Z.land x allowed) allowed = true.
Proof.
  apply enum_is_subset_spec. intros j Hj H.
  rewrite Z.land_spec in H. now apply andb_true_iff in H.
Qed.

Lemma enum_is_subset_lor (c allowed more : Z) :
  enum_is_subset c allowed = true -> enum_is_subset c (Z.lor allowed more) = true.
Proof.
  rewrite !enum_is_subset_spec. intros H j Hj Hc.
  rewrite Z.lor_spec, (H j Hj Hc). reflexivity.
Qed.

(** X14: [enum_is_subset] holds exactly when every bit of the value is a
    bit of the mask; so it holds for no flag at all, for any value cut down
    to the mask, and it keeps holding when the mask grows. *)
Theorem enum_is_subset_bits (c allowed more : Z) :
  (enum_is_subset c allowed = true <->
   forall j, 0 <= j -> Z.testbit c j = true -> Z.testbit allowed j = true) /\
  enum_is_subset 0 allowed = true /\
  enum_is_subset (Z.land c allowed) allowed = true /\
  (enum_is_subset c allowed = true ->
   enum_is_subset c (Z.lor allowed more) = true).
Proof.
  split; [apply enum_is_subset_spec|].
  split; [|split; [apply enum_is_subset_land|apply enum_is_subset_lor]].
  apply enum_is_subset_spec. intros j _ H. now rewrite Z.bits_0 in H.
Qed.

Lemma enum_is_subset_bits_witness :
  enum_is_subset 6 (Z.lor 22 64) = true.
Proof.
  exact (proj2 (proj2 (proj2 (enum_is_subset_bits 6 22 64))) eq_refl).
Defined.

Section validation.

Variables dont_watch dont_discard write_flush read_shared scan_bulk : Z.

Local Abbreviation validate_write := (validate_write dont_watch dont_discard write_flush).
Local Abbreviation validate_read := (validate_read dont_watch dont_discard read_shared).
Local Abbreviation validate_scan :=
  (validate_scan dont_watch dont_discard read_shared scan_bulk).
Local Abbreviation write_allowed :=
  (write_allowed_options dont_watch dont_discard write_flush).
Local Abbreviation read_allowed :=
  (read_allowed_options dont_watch dont_discard read_shared).
Local Abbreviation scan_allowed :=
  (scan_allowed_options dont_watch dont_discard read_shared scan_bulk).

(** X15: a read goes through validation exactly when its options are
    permitted and it has keys; a scan, when its options are permitted and
    it has limits; a write with contents, when its options are permitted
    and it has keys, whatever its lengths and offsets. *)
Theorem validators_accept_iff (c_txn : Z) (places : places_arg_t)
    (contents : contents_arg_t) (args : scans_arg_t) (c_options : Z) :
  (validate_read c_txn places c_options None = None <->
   enum_is_subset c_options read_allowed = true /\ raw (keys_begin places) <> 0) /\
  (validate_scan c_txn args c_options None = None <->
   enum_is_subset c_options scan_allowed = true /\ raw (limits args) <> 0) /\
  (raw (contents_begin contents) <> 0 ->
   (validate_write c_txn places contents c_options None = None <->
    enum_is_subset c_options write_allowed = true /\ raw (keys_begin places) <> 0)).
Proof.
  unfold ranges_args.validate_read, ranges_args.validate_scan,
    ranges_args.validate_write, return_error_if_m.
  split; [|split].
  - destruct (enum_is_subset _ _); [|split; [done|intros [? _]; done]].
    destruct (is_set (keys_begin places)) eqn:E.
    + apply is_set_iff in E. tauto.
    + split; [done|]. intros [_ H]. apply is_set_iff in H. congruence.
  - destruct (enum_is_subset _ _); [|split; [done|intros [? _]; done]].
    destruct (is_set (limits args)) eqn:E.
    + apply is_set_iff in E. tauto.
    + split; [done|]. intros [_ H]. apply is_set_iff in H. congruence.
  - intros Hc. rewrite (is_set_true _ Hc). cbn [negb].
    destruct (enum_is_subset _ _); [|split; [done|intros [? _]; done]].
    destruct (is_set (keys_begin places)) eqn:E.
    + apply is_set_iff in E. tauto.
    + split; [done|]. intros [_ H]. apply is_set_iff in H. congruence.
Qed.

(** X16: whatever is asked for, the options cut down to the permitted ones
    pass: with keys and contents a write, with keys a read and with limits
    a scan leave the error as it was. *)
Theorem permitted_flags_accepted (c_txn : Z) (places : places_arg_t)
    (contents : contents_arg_t) (args : scans_arg_t) (x : Z)
    (c_error : ustore_error_t) :
  raw (keys_begin places) <> 0 ->
  (raw (contents_begin contents) <> 0 ->
   validate_write c_txn places contents (Z.land x write_allowed) c_error = c_error) /\
  validate_read c_txn places (Z.land x read_allowed) c_error = c_error /\
  (raw (limits args) <> 0 ->
   validate_scan c_txn args (Z.land x scan_allowed) c_error = c_error).
Proof.
  intros Hk.
  unfold ranges_args.validate_read, ranges_args.validate_scan,
    ranges_args.validate_write, return_error_if_m.
  rewrite !enum_is_subset_land, (is_set_true _ Hk).
  split; [|split].
  - intros Hc. now rewrite (is_set_true _ Hc).
  - reflexivity.
  - intros Hl. now rewrite (is_set_true _ Hl).
Qed.

(** X17: the options a read may carry, a scan may carry as well. *)
Theorem scan_accepts_read_options (c_options : Z) :
  enum_is_subset c_options read_allowed = true ->
  enum_is_subset c_options scan_allowed = true.
Proof.
  unfold read_allowed_options, scan_allowed_options.
  apply enum_is_subset_lor.
Qed.

(** X18: a transaction begins only with a handle and with no option but
    [ustore_option_transaction_dont_watch_k], and commits only with a
    handle and with no option but [ustore_option_write_flush_k]; anything
    else is reported as [args_wrong_k]. *)
Theorem validate_transaction_iff (c_txn c_options : Z) (c_error : ustore_error_t) :
  (validate_transaction_begin dont_watch c_txn c_options None = None <->
   c_txn <> 0 /\ enum_is_subset c_options dont_watch = true) /\
  (validate_transaction_commit write_flush c_txn c_options None = None <->
   c_txn <> 0 /\ enum_is_subset c_options write_flush = true) /\
  (c_txn = 0 \/ enum_is_subset c_options dont_watch = false ->
   is_args_wrong (validate_transaction_begin dont_watch c_txn c_options c_error)) /\
  (c_txn = 0 \/ enum_is_subset c_options write_flush = false ->
   is_args_wrong (validate_transaction_commit write_flush c_txn c_options c_error)).
Proof.
  unfold validate_transaction_begin, validate_transaction_commit,
    return_error_if_m, is_args_wrong.
  destruct (Z.eqb_spec c_txn 0) as [E|E]; cbn [negb];
    destruct (enum_is_subset c_options dont_watch);
    destruct (enum_is_subset c_options write_flush);
    repeat split; try tauto; try done; eauto;
    try (intros [? ?]; done); try (intros [?|?]; done || eauto).
Qed.

End validation.

Lemma validators_accept_iff_witness :
  validate_read 4 16 32 0 example_places 36 None = None.
Proof.
  apply (proj1 (validators_accept_iff 4 16 2 32 64 0 example_places example_contents
                  example_scans_without_limits 36)).
  split; [reflexivity|simpl; lia].
Defined.

Lemma permitted_flags_accepted_witness :
  validate_read 4 16 32 0 example_places (Z.land 255 (read_allowed_options 4 16 32)) None
  = None.
Proof.
  refine (proj1 (proj2 (permitted_flags_accepted 4 16 2 32 64 0 example_places
                          example_contents example_scans_without_limits 255 None _))).
  simpl. lia.
Defined.

Lemma scan_accepts_read_options_witness :
  enum_is_subset 36 (scan_allowed_options 4 16 32 64) = true.
Proof. exact (scan_accepts_read_options 4 16 32 64 36 eq_refl). Defined.

Lemma validate_transaction_iff_witness :
  validate_transaction_begin 4 1 4 None = None /\
  is_args_wrong (validate_transaction_commit 2 0 2 None).
Proof.
  destruct (validate_transaction_iff 4 2 1 4 None) as (Hb & _).
  destruct (validate_transaction_iff 4 2 0 2 None) as (_ & _ & _ & Hc).
  split.
  - apply Hb. split; [lia|reflexivity].
  - apply Hc. left. reflexivity.
Defined.

End validation_more_facts.

(** ** More on the contents *)

Module bundle_more_facts.
Import ranges_args ranges_facts bundle_facts.

(** X19: a payload that is not there gives the empty view, whatever the
    lengths, the offsets and the separator, and without any scan: when the
    array of pointers is not given, when the pointer at [i] is null, or
    when there is a bitmap and its bit [i] is clear. *)
Theorem contents_at_absent (fuel : nat) (m : memory) (c : contents_arg_t) (i : nat) :
  raw (contents_begin c) = 0 \/
  at_ m (contents_begin c) i = 0 \/
  (bits_begin (presences_begin c) <> 0 /\ bits_at m (presences_begin c) i = false) ->
  contents_at fuel m c i = Some empty_view.
Proof.
  intros H. unfold contents_at.
  destruct H as [H|[H|[H1 H2]]].
  - now rewrite (is_set_false _ H).
  - rewrite H. cbn [Z.eqb]. now rewrite orb_true_r.
  - unfold bits_is_set. apply Z.eqb_neq in H1. rewrite H1, H2. cbn [negb andb].
    now rewrite orb_true_r.
Qed.

Lemma contents_at_absent_witness :
  contents_at 0 example_memory example_lengths_without_contents 1 = Some empty_view.
Proof.
  apply (contents_at_absent 0 example_memory example_lengths_without_contents 1).
  left. reflexivity.
Defined.

Lemma at_repeats {e : element_t} (m : memory) (it : strided_iterator_gt e) (i : nat) :
  repeats it = true -> at_ m it i = at_ m it 0.
Proof.
  unfold repeats, at_. intros H. apply Z.eqb_eq in H. rewrite H. f_equal. lia.
Qed.

Section arrow.

Variable m : memory.
Variable c : contents_arg_t.
Hypothesis arrow : is_arrow c = true.
Hypothesis given : raw (contents_begin c) <> 0.
Hypothesis payload : at_ m (contents_begin c) 0 <> 0.
Hypothesis present :
  bits_is_set (presences_begin c) = true ->
  forall i, (i < contents_count c)%nat -> bits_at m (presences_begin c) i = true.
Hypothesis monotone :
  forall i, (S i < contents_count c)%nat ->
  at_ m (offsets_begin c) i <= at_ m (offsets_begin c) (S i).

Lemma arrow_parts :
  repeats (contents_begin c) = true /\ is_set (offsets_begin c) = true /\
  is_set (lengths_begin c) = false.
Proof.
  unfold is_arrow in arrow.
  apply andb_true_iff in arrow. destruct arrow as [H12 H3].
  apply andb_true_iff in H12. destruct H12 as [H1 H2].
  apply negb_true_iff in H3. done.
Qed.

Local Abbreviation arrow_view := (arrow_view m c).

Lemma contents_at_arrow (fuel : nat) (i : nat) :
  (i < contents_count c)%nat -> contents_at fuel m c i = Some (arrow_view i).
Proof.
  intros Hi. destruct arrow_parts as (Hr & Ho & Hl).
  unfold contents_at. rewrite (is_set_true _ given), (at_repeats m _ i Hr).
  apply Z.eqb_neq in payload. rewrite payload. cbn [negb orb].
  destruct (bits_is_set (presences_begin c)) eqn:Hb.
  - rewrite (present eq_refl i Hi). cbn [negb andb]. now rewrite Hl, Ho.
  - cbn [andb]. now rewrite Hl, Ho.
Qed.

Lemma arrow_view_adjacent (i : nat) :
  (S i < contents_count c)%nat ->
  view_begin (arrow_view (S i)) = view_end (arrow_view i).
Proof.
  intros Hi. unfold view_end, arrow_view. cbn [view_begin view_length].
  replace (i + 1)%nat with (S i) by lia.
  pose proof (monotone i Hi) as Hle.
  pose proof (load_length_range m
    (raw (offsets_begin c) + Z.of_nat i * stride (offsets_begin c))) as H1.
  pose proof (load_length_range m
    (raw (offsets_begin c) + Z.of_nat (S i) * stride (offsets_begin c))) as H2.
  fold (at_ m (offsets_begin c) i) in H1. fold (at_ m (offsets_begin c) (S i)) in H2.
  unfold wrap. rewrite Z.mod_small by lia. lia.
Qed.

Lemma continuous_loop_arrow (fuel : nat) (todo : nat) :
  forall i : nat,
  (S i + todo = contents_count c)%nat ->
  continuous_loop fuel m c (S i) todo (arrow_view i) = Some true.
Proof.
  induction todo as [|todo IH]; intros i Hi; [done|].
  cbn [continuous_loop]. rewrite contents_at_arrow by lia. cbn [mbind option_bind].
  rewrite arrow_view_adjacent by lia. rewrite Z.eqb_refl. cbn [negb].
  apply IH. lia.
Qed.

(** X21: contents in the Arrow layout (one payload pointer for all, offsets
    and no lengths) with all payloads present and offsets that do not
    decrease are continuous: every payload starts where the one before it
    ends.  The bundle must not be empty: the loop counts from [1]. *)
Theorem arrow_is_continuous (fuel : nat) :
  (1 <= contents_count c)%nat -> Z.of_nat (contents_count c) < 2 ^ 64 ->
  is_continuous fuel m c = Some true.
Proof.
  intros H1 H64. unfold is_continuous.
  rewrite contents_at_arrow by lia. cbn [mbind option_bind].
  unfold wrap. rewrite Z.mod_small by lia.
  apply continuous_loop_arrow. lia.
Qed.

End arrow.

End bundle_more_facts.

(** ** Edges as triples *)

Module tuples_facts.
Import ranges_args ranges_facts bundle_facts.

Lemma length_edge_bytes (e : edge_t) : length (edge_bytes e) = 24%nat.
Proof. unfold edge_bytes. now rewrite !length_app, !length_le_encode. Qed.

Lemma length_edges_bytes (es : list edge_t) :
  length (edges_bytes es) = (24 * length es)%nat.
Proof.
  unfold edges_bytes. induction es as [|e es IH]; [done|].
  change (length (edge_bytes e ++ (es ≫= edge_bytes)) = (24 * length (e :: es))%nat).
  rewrite length_app, length_edge_bytes, IH. cbn [length]. lia.
Qed.

Lemma edges_bytes_lookup (es : list edge_t) :
  forall (i : nat) (e : edge_t) (r : nat),
  es !! i = Some e -> (r < 24)%nat ->
  edges_bytes es !! (24 * i + r)%nat = edge_bytes e !! r.
Proof.
  unfold edges_bytes. induction es as [|x es IH]; intros i e r Hi Hr; [done|].
  change ((edge_bytes x ++ (es ≫= edge_bytes)) !! (24 * i + r)%nat = edge_bytes e !! r).
  destruct i as [|i].
  - injection Hi as ->. rewrite lookup_app_l by (rewrite length_edge_bytes; lia).
    f_equal.
  - rewrite lookup_app_r by (rewrite length_edge_bytes; lia).
    rewrite length_edge_bytes.
    replace (24 * S i + r - 24)%nat with (24 * i + r)%nat by lia.
    now apply IH.
Qed.

(** Eight bytes of a triple held in memory, read as a key. *)
Lemma load_member (m : memory) (ptr : Z) (es : list edge_t) (i : nat) (e : edge_t)
    (off : nat) (x : Z) :
  holds m ptr (edges_bytes es) -> es !! i = Some e ->
  (off + 8 <= 24)%nat ->
  take 8 (drop off (edge_bytes e)) = le_encode 8 x -> key_in_range x ->
  load key_e m (ptr + Z.of_nat off + Z.of_nat i * sizeof_edge_t) = x.
Proof.
  intros Hm Hi Hoff Hx Hr. unfold load.
  assert (E : load_bytes m (ptr + Z.of_nat off + Z.of_nat i * sizeof_edge_t) 8
              = le_encode 8 x).
  { rewrite <- Hx. apply list_eq. intros j. unfold load_bytes.
    rewrite list_lookup_fmap.
    destruct (decide (j < 8)%nat) as [Hj|Hj].
    - rewrite lookup_seq_lt by lia. cbn [fmap option_fmap option_map Nat.add].
      rewrite lookup_take_lt, lookup_drop by lia.
      rewrite <- (edges_bytes_lookup es i e (off + j) Hi) by lia.
      destruct (edges_bytes es !! (24 * i + (off + j))%nat) as [b|] eqn:Hb.
      + f_equal. rewrite <- (Hm _ b Hb). f_equal. unfold sizeof_edge_t. lia.
      + apply lookup_ge_None in Hb. rewrite length_edges_bytes in Hb.
        apply lookup_lt_Some in Hi. lia.
    - rewrite lookup_seq_ge by lia. rewrite lookup_take_ge by lia. done. }
  rewrite E, le_decode_encode.
  change (256 ^ Z.of_nat 8) with (2 ^ ukv_key_bits).
  now apply to_signed_wrap.
Qed.

(** X22: an array of triples viewed as three columns gives the triples
    back: over a memory that holds the encoded triples from [ptr] on, the
    range built from [ptr] and its end has as many edges as the array,
    and its edge [i] is the [i]-th triple. *)
Theorem edges_of_tuples_round_trip (m : memory) (ptr : Z) (es : list edge_t)
    (i : nat) (e : edge_t) :
  holds m ptr (edges_bytes es) -> Forall edge_in_range es -> es !! i = Some e ->
  let r := edges_range_of_tuples ptr (ptr + sizeof_edge_t * Z.of_nat (length es)) in
  edges_size r = length es /\ edges_at m r i = e.
Proof.
  intros Hm Hr Hi r.
  destruct (Forall_lookup_1 _ _ i e Hr Hi) as (Hs & Ht & Hd).
  split.
  - unfold r, edges_size, edges_range_of_tuples. cbn [source_ids target_ids count_].
    rewrite Nat.min_id.
    replace (ptr + sizeof_edge_t * Z.of_nat (length es) - ptr)
      with (Z.of_nat (length es) * sizeof_edge_t) by lia.
    rewrite Z.div_mul by (unfold sizeof_edge_t; lia). lia.
  - unfold r, edges_at, edges_range_of_tuples, range_at, at_.
    cbn [source_ids target_ids edge_ids begin_ raw stride].
    destruct e as [s t d]. cbn [source_id target_id id] in *. f_equal.
    + rewrite <- (Z.add_0_r ptr) at 1. change 0 with (Z.of_nat 0).
      apply (load_member m ptr es i _ 0%nat s Hm Hi); [lia| |done].
      unfold edge_bytes. cbn [source_id target_id id]. rewrite drop_0.
      now rewrite take_app_length' by (now rewrite length_le_encode).
    + change 8 with (Z.of_nat 8).
      apply (load_member m ptr es i _ 8%nat t Hm Hi); [lia| |done].
      unfold edge_bytes. cbn [source_id target_id].
      rewrite drop_app_length' by (now rewrite length_le_encode).
      now rewrite take_app_length' by (now rewrite length_le_encode).
    + change 16 with (Z.of_nat 16).
      apply (load_member m ptr es i _ 16%nat d Hm Hi); [lia| |done].
      unfold edge_bytes. cbn [source_id target_id id].
      rewrite app_assoc.
      rewrite drop_app_length' by (now rewrite length_app, !length_le_encode).
      now rewrite firstn_all2 by (now rewrite length_le_encode).
Qed.

End tuples_facts.

(** ** The buffer of [neighbors] *)

Module networkx_more_facts.
Import ranges_args networkx networkx_facts.

(** X23: the loop of [neighbors] keeps the number of triples and their
    identifiers, and leaves in the column of the sources, for every triple,
    the end of the edge that is not [n]. *)
Theorem neighbors_loop_sources (n : Z) (edges : list edge_t) :
  let buffer := swap_loop n 0 (length edges) edges in
  length buffer = length edges /\
  id <$> buffer = id <$> edges /\
  source_id <$> buffer = other_end n <$> edges.
Proof.
  cbv zeta. rewrite swap_loop_spec.
  rewrite take_0, drop_0, firstn_all, Nat.add_0_l, drop_all, app_nil_r, app_nil_l.
  split; [apply length_fmap|].
  split; rewrite <- list_fmap_compose; apply list_fmap_ext; intros _ e _;
    simpl; unfold swapped, other_end; now destruct (source_id e =? n).
Qed.

End networkx_more_facts.

(** ** The replay of the stress test *)

Module stress_facts.
Import stress_linearizability.

(** X24: with at most one part of removals the choice of the code never
    gives an insertion, whatever the random number: every operation of such
    a run is a removal. *)
Theorem choose_code_never_inserts (part_inserts_ak part_removes_ak random : Z) :
  0 <= part_inserts_ak -> 0 <= part_removes_ak <= 1 ->
  0 < part_inserts_ak + part_removes_ak -> 0 <= random ->
  choose_code part_inserts_ak part_removes_ak random = remove_k.
Proof.
  intros Hi Hr Ht Hrand. unfold choose_code. cbv zeta.
  pose proof (Z.mod_pos_bound random (part_inserts_ak + part_removes_ak) Ht) as Hm.
  destruct (Z.gtb_spec (random mod (part_inserts_ak + part_removes_ak)) part_inserts_ak);
    [lia|done].
Qed.

Lemma choose_code_never_inserts_witness :
  choose_code 10 1 123456789 = remove_k.
Proof.
  apply (choose_code_never_inserts 10 1 123456789); lia.
Defined.

Lemma replay_one_ineffective (s : gmap Z Z) (op : operation_t) :
  effective op = false -> replay_one s op = s.
Proof.
  unfold effective, replay_one. destruct (commited op); [|done].
  destruct (code op); done.
Qed.

(** X25: operations that were not committed, and selections, have no part
    in the replay. *)
Theorem replay_effective (s : gmap Z Z) (ops : list operation_t) :
  replay s ops = replay s (filter (fun op => effective op = true) ops).
Proof.
  unfold replay. revert s. induction ops as [|op ops IH]; intros s; [done|].
  rewrite filter_cons. destruct (effective op) eqn:E.
  - rewrite decide_True by done. cbn [foldl]. apply IH.
  - rewrite decide_False by done. cbn [foldl].
    rewrite replay_one_ineffective by done. apply IH.
Qed.

Lemma replay_no_write (k : Z) (ops : list operation_t) :
  forall s : gmap Z Z,
  Forall (fun o => writes_to k o = false) ops -> replay s ops !! k = s !! k.
Proof.
  unfold replay. induction ops as [|op ops IH]; intros s H; [done|].
  inversion H as [|? ? Hop Hops]; subst. cbn [foldl]. rewrite IH by done.
  unfold writes_to in Hop. unfold replay_one.
  destruct (commited op); [|done]. cbn [negb andb] in *.
  destruct (Z.eqb_spec (key op) k) as [E|E]; cbn [andb] in Hop.
  - destruct (code op); done.
  - destruct (code op); [now apply lookup_insert_ne|now apply lookup_delete_ne|done].
Qed.

Lemma replay_write (k : Z) (pre post : list operation_t) (op : operation_t)
    (s : gmap Z Z) :
  writes_to k op = true -> Forall (fun o => writes_to k o = false) post ->
  replay s (pre ++ op :: post) !! k = written op.
Proof.
  intros Hop Hpost.
  change (replay s (pre ++ op :: post))
    with (foldl replay_one s (pre ++ op :: post)).
  rewrite foldl_app. cbn [foldl].
  change (foldl replay_one ?x post) with (replay x post).
  rewrite replay_no_write by done.
  unfold writes_to in Hop. unfold replay_one, written.
  apply andb_true_iff in Hop. destruct Hop as [Hck Hc].
  apply andb_true_iff in Hck. destruct Hck as [Hcm Hk].
  apply Z.eqb_eq in Hk. rewrite Hcm. cbn [negb]. subst k.
  destruct (code op); [apply lookup_insert_eq|apply lookup_delete_eq|done].
Qed.

(** X26: after the replay a key holds what the last committed write to it
    left: the value of an insertion, nothing after a removal; a key that no
    committed operation writes is as it was. *)
Theorem replay_last_write (k : Z) (pre post : list operation_t) (op : operation_t)
    (s : gmap Z Z) :
  Forall (fun o => writes_to k o = false) post ->
  (writes_to k op = true -> replay s (pre ++ op :: post) !! k = written op) /\
  replay s post !! k = s !! k.
Proof.
  intros Hpost. split.
  - intros Hop. now apply replay_write.
  - now apply replay_no_write.
Qed.

Lemma replay_last_write_witness :
  replay ∅ [mk_operation 7 1 10 insert_k true; mk_operation 7 2 11 insert_k true;
            mk_operation 7 3 12 insert_k false; mk_operation 8 4 13 remove_k true] !! 7
  = Some 2.
Proof.
  refine (proj1 (replay_last_write 7 [mk_operation 7 1 10 insert_k true]
                   [mk_operation 7 3 12 insert_k false; mk_operation 8 4 13 remove_k true]
                   (mk_operation 7 2 11 insert_k true) ∅ _) eq_refl).
  repeat constructor.
Defined.

End stress_facts.

(** ** The sort of the stress test *)

Module sort_facts.
Import stress_linearizability stress_facts.

Lemma stable_insert_perm (op : operation_t) (ops : list operation_t) :
  stable_insert op ops ≡ₚ op :: ops.
Proof.
  induction ops as [|x ops IH]; [done|]. cbn [stable_insert].
  destruct (sequence_less x op); [|done].
  rewrite IH. apply Permutation_swap.
Qed.

Lemma stable_sort_perm (ops : list operation_t) : stable_sort ops ≡ₚ ops.
Proof.
  induction ops as [|op ops IH]; [done|]. cbn [stable_sort].
  now rewrite stable_insert_perm, IH.
Qed.

Lemma stable_insert_sorted (op : operation_t) (ops : list operation_t) :
  StronglySorted sequence_le ops -> StronglySorted sequence_le (stable_insert op ops).
Proof.
  induction ops as [|x ops IH]; intros H.
  - repeat constructor.
  - inversion H as [|? ? Hs Hall]; subst. cbn [stable_insert].
    unfold sequence_less. destruct (Z.ltb_spec (sequence x) (sequence op)) as [Hlt|Hge].
    + constructor; [now apply IH|].
      rewrite stable_insert_perm. constructor; [unfold sequence_le; lia|done].
    + constructor; [done|]. constructor; [done|].
      eapply Forall_impl; [exact Hall|]. unfold sequence_le. intros; lia.
Qed.

Lemma stable_sort_sorted (ops : list operation_t) :
  StronglySorted sequence_le (stable_sort ops).
Proof.
  induction ops as [|op ops IH]; [constructor|]. cbn [stable_sort].
  now apply stable_insert_sorted.
Qed.

Lemma stable_insert_filter (s : Z) (op : operation_t) (ops : list operation_t) :
  filter (fun o => sequence o = s) (stable_insert op ops) =
  filter (fun o => sequence o = s) (op :: ops).
Proof.
  induction ops as [|x ops IH]; [done|]. cbn [stable_insert].
  unfold sequence_less. destruct (Z.ltb_spec (sequence x) (sequence op)) as [Hlt|Hge];
    [|done].
  rewrite filter_cons, IH, !filter_cons.
  destruct (decide (sequence x = s)) as [Ex|Ex];
    destruct (decide (sequence op = s)) as [Eo|Eo]; try done.
  lia.
Qed.

(** X27: the sort by sequence number rearranges the operations (none is
    lost or added), puts them in the order of their sequence numbers, and
    keeps the operations of one sequence number in the order they had. *)
Theorem stable_sort_spec (ops : list operation_t) (s : Z) :
  stable_sort ops ≡ₚ ops /\
  StronglySorted sequence_le (stable_sort ops) /\
  filter (fun o => sequence o = s) (stable_sort ops) =
  filter (fun o => sequence o = s) ops.
Proof.
  split; [apply stable_sort_perm|]. split; [apply stable_sort_sorted|].
  induction ops as [|op ops IH]; [done|]. cbn [stable_sort].
  now rewrite stable_insert_filter, !filter_cons, IH.
Qed.

(** X28: in the sorted replay the committed write to a key with the
    greatest sequence number decides what the key holds, wherever the
    threads left it in the array. *)
Theorem sorted_replay_greatest (k : Z) (ops : list operation_t) (op : operation_t)
    (s : gmap Z Z) :
  op ∈ ops -> writes_to k op = true ->
  (forall o, o ∈ ops -> writes_to k o = true -> o = op \/ sequence o < sequence op) ->
  sorted_replay s ops !! k = written op.
Proof.
  intros Hin Hop Hmax. unfold sorted_replay.
  assert (Hin' : op ∈ stable_sort ops) by (now rewrite stable_sort_perm).
  destruct (list_elem_of_split_r _ _ Hin') as (pre & post & E & Hnot).
  pose proof (stable_sort_sorted ops) as Hs. rewrite E in Hs |- *.
  apply replay_write; [done|].
  apply StronglySorted_app in Hs. destruct Hs as (_ & _ & Hs).
  apply StronglySorted_cons in Hs. destruct Hs as [Hall _].
  apply Forall_forall. intros o Ho.
  destruct (writes_to k o) eqn:Hw; [|done]. exfalso.
  assert (Hoin : o ∈ ops).
  { rewrite <- stable_sort_perm, E. set_solver. }
  destruct (Hmax o Hoin Hw) as [->|Hlt]; [done|].
  rewrite Forall_forall in Hall. specialize (Hall o Ho).
  unfold sequence_le in Hall. lia.
Qed.

Lemma sorted_replay_greatest_witness :
  sorted_replay ∅ [mk_operation 7 2 11 insert_k true;
                   mk_operation 7 1 10 insert_k true] !! 7
  = Some 2.
Proof.
  refine (sorted_replay_greatest 7 _ (mk_operation 7 2 11 insert_k true) ∅ _ eq_refl _).
  - apply list_elem_of_here.
  - intros o Ho _. apply elem_of_cons in Ho. destruct Ho as [->|Ho]; [now left|].
    apply list_elem_of_singleton in Ho. subst o. right. simpl. lia.
Defined.

End sort_facts.

(** ** The scan for the separator, and examples *)

Module scan_facts.
Import ranges_args ranges_facts bundle_facts bundle_more_facts tuples_facts.

Lemma byte_eqb_eq (x y : byte) : Byte.eqb x y = true -> x = y.
Proof. apply Byte.byte_dec_bl. Qed.

Lemma find_separator_some (m : memory) (item : Z) (sep : byte) (fuel : nat) :
  forall len k : Z,
  0 <= len -> len + Z.of_nat fuel <= 2 ^ 32 ->
  find_separator fuel m item len sep = Some k ->
  len <= k < len + Z.of_nat fuel /\ m (item + k) = sep /\
  forall p, len <= p < k -> m (item + p) <> sep.
Proof.
  induction fuel as [|fuel IH]; intros len k Hlen Hfuel H; [done|].
  cbn [find_separator] in H.
  destruct (Byte.eqb (m (item + len)) sep) eqn:E.
  - injection H as <-. apply byte_eqb_eq in E.
    assert (Hk : wrap 32 (wrap 32 (len + 1) - 1) = len).
    { unfold wrap. change (2 ^ 32) with 4294967296 in *.
      Z.to_euclidean_division_equations; lia. }
    rewrite Hk. split; [lia|]. split; [done|]. intros p Hp. lia.
  - destruct fuel as [|fuel']; [done|].
    assert (Hw : wrap 32 (len + 1) = len + 1).
    { unfold wrap. apply Z.mod_small. lia. }
    rewrite Hw in H.
    destruct (IH (len + 1) k ltac:(lia) ltac:(lia) H) as (Hr & Hat & Hbefore).
    split; [lia|]. split; [done|]. intros p Hp.
    destruct (Z.eq_dec p len) as [->|Hne].
    + apply Byte.eqb_false in E. exact E.
    + apply Hbefore. lia.
Qed.

Lemma find_separator_none (m : memory) (item : Z) (sep : byte) (fuel : nat) :
  forall len : Z,
  0 <= len -> len + Z.of_nat fuel <= 2 ^ 32 ->
  (find_separator fuel m item len sep = None <->
   forall p, len <= p < len + Z.of_nat fuel -> m (item + p) <> sep).
Proof.
  induction fuel as [|fuel IH]; intros len Hlen Hfuel.
  - split; [intros _ p Hp; lia|done].
  - cbn [find_separator].
    destruct (Byte.eqb (m (item + len)) sep) eqn:E.
    + split; [done|]. intros H. apply byte_eqb_eq in E.
      exfalso. apply (H len); [lia|done].
    + assert (Hw : wrap 32 (len + 1) = len + 1 \/ fuel = 0%nat).
      { destruct fuel; [now right|left]. unfold wrap. apply Z.mod_small. lia. }
      apply Byte.eqb_false in E.
      destruct Hw as [Hw| ->].
      * rewrite Hw, (IH (len + 1)) by lia. split.
        -- intros H p Hp. destruct (Z.eq_dec p len) as [->|Hne]; [done|].
           apply H. lia.
        -- intros H p Hp. apply H. lia.
      * cbn [find_separator]. split; [|done]. intros _ p Hp.
        replace p with len by lia. done.
Qed.

(** X20: the scan for the separator, given room for at most [2^32] bytes,
    returns a length exactly when the byte at that position is the first
    separator, and gives up exactly when none of the bytes it may inspect is
    one. *)
Theorem find_separator_sound (m : memory) (item : Z) (sep : byte) (fuel : nat) (k : Z) :
  Z.of_nat fuel <= 2 ^ 32 ->
  (find_separator fuel m item 0 sep = Some k ->
   0 <= k < Z.of_nat fuel /\ m (item + k) = sep /\
   forall p, 0 <= p < k -> m (item + p) <> sep) /\
  (find_separator fuel m item 0 sep = None <->
   forall p, 0 <= p < Z.of_nat fuel -> m (item + p) <> sep).
Proof.
  intros Hfuel. split.
  - intros H. now apply (find_separator_some m item sep fuel 0 k).
  - now apply (find_separator_none m item sep fuel 0).
Qed.

Lemma find_separator_sound_witness :
  example_memory (200 + 3) = x00.
Proof.
  refine (proj1 (proj2 (proj1 (find_separator_sound example_memory 200 x00 10 3 _) _))).
  - lia.
  - reflexivity.
Defined.

Lemma arrow_is_continuous_witness :
  is_continuous 0 example_arrow_memory example_arrow_contents = Some true.
Proof.
  refine (arrow_is_continuous example_arrow_memory example_arrow_contents
            eq_refl _ _ _ _ 0 _ _).
  - simpl. lia.
  - vm_compute. discriminate.
  - intros H. vm_compute in H. discriminate.
  - intros i Hi. assert (i = 0%nat) as -> by (simpl in Hi; lia).
    vm_compute. discriminate.
  - simpl. lia.
  - simpl. lia.
Defined.

Lemma holds_memory_of (base : Z) (bytes : list byte) :
  holds (memory_of [(base, bytes)]) base bytes.
Proof.
  intros j b Hj. unfold memory_of. cbn [omap list_omap fst snd].
  pose proof (lookup_lt_Some _ _ _ Hj) as Hlt.
  replace (base <=? base + Z.of_nat j) with true by (symmetry; apply Z.leb_le; lia).
  replace (base + Z.of_nat j <? base + Z.of_nat (length bytes)) with true
    by (symmetry; apply Z.ltb_lt; lia).
  cbn [andb]. replace (Z.to_nat (base + Z.of_nat j - base)) with j by lia.
  now rewrite Hj.
Qed.

Lemma edges_of_tuples_round_trip_witness :
  edges_at example_edges_memory (edges_range_of_tuples 1000 1048) 1 = mk_edge 3 1 (-1).
Proof.
  refine (proj2 (edges_of_tuples_round_trip example_edges_memory 1000 example_edges 1
                   (mk_edge 3 1 (-1)) _ _ eq_refl)).
  - apply holds_memory_of.
  - repeat (constructor; [repeat split; unfold key_in_range, ukv_key_bits; simpl; lia|]).
    constructor.
Defined.

End scan_facts.
